(** * Perception states of the task sequencer: a shallow embedding

    Source: [mir_states/common/perception_states.py].  Its four steps are
    embedded: [find_objects], [transform_object_poses],
    [do_visual_servoing] and [find_cavities].  Each [execute] is written with explicit state passing: the step object
    ([self]), the user data slots and the list of actions the step has
    taken so far.

    Modelling conventions.
    - ROS time stamps and durations are integers (nanoseconds), as in
      [rospy.Time]; a clock reading is supplied by the environment.
    - Subscriber callbacks run on another thread.  The environment delivers
      them in batches: one batch before each poll of a waiting loop (the
      first batch is what arrived since the latch was cleared).  In
      [find_objects] there is also a batch before each read of the latch
      that follows the waiting loop (lines 59, 66 and 70).  In
      [find_cavities] a poll reads the latch once: no callback runs
      between lines 159 and 165 of one poll.
    - In [find_cavities] the transform listener returns a pose or raises
      one of the three exceptions the step catches; in
      [transform_object_poses] it may raise anything.
    - A waiting loop polls once per [Tick] of its script; a script that runs
      out before the loop leaves stands for a loop that is still polling
      ([Pending]).
    - [matching_error] is a float64 in the message; it is modelled by the
      rational it denotes, and [<] on finite floats is [<] on rationals.
      NaN and infinities are outside the model.
    - Exceptions raised by rospy itself (a shutdown during [rospy.sleep])
      and log output are outside the model. *)

From Stdlib Require Import ZArith QArith String List Bool Lia.
From stdpp Require Import base list strings.
Import ListNotations.

Local Open Scope string_scope.
Local Open Scope list_scope.

(** ** Python values shared by the steps *)

(** What an [execute] call does in the end. *)
Inductive completion :=
| Return (outcome : option string)   (* [None] is Python's [None] *)
| Raise (exn : string)
| Pending.

(** An instance attribute that exists only once it has been assigned. *)
Inductive attr (A : Type) :=
| Missing
| Has (a : A).
Arguments Missing {A}.
Arguments Has {A} a.

(** Error monad for attribute reads. *)
Inductive res (A : Type) :=
| Ok (a : A)
| AttributeError.
Arguments Ok {A} a.
Arguments AttributeError {A}.

Definition getattr {A} (a : attr A) : res A :=
  match a with
  | Missing => AttributeError
  | Has v => Ok v
  end.

Definition rbind {A B} (m : res A) (k : A -> res B) : res B :=
  match m with
  | Ok a => k a
  | AttributeError => AttributeError
  end.

Notation "'let*' x ':=' m 'in' k" := (rbind m (fun x => k))
  (at level 10, x name, m at level 100, k at level 200).

(** [v is not None] *)
Definition is_not_none {A} (v : option A) : bool :=
  match v with
  | Some _ => true
  | None => false
  end.

(** [x < y] on scores, as a boolean. *)
Definition Qltb (x y : Q) : bool := negb (Qle_bool y x).

(** ** Messages *)

Record Pose := mkPose {
  pose_frame_id : string;   (* pose.header.frame_id *)
  pose_data : Z             (* position and orientation, opaque here *)
}.

Record Object := mkObject {
  name : string;
  object_pose : Pose
}.

Record ObjectList := mkObjectList {
  objects : list Object
}.

Record Cavity := mkCavity {
  object_name : string;
  matching_error : Q;        (* template_matching_error.matching_error *)
  cavity_pose : Pose
}.

(** Actions of a step, in program order: a latch attribute being cleared
    and a message being published. *)
Inductive Event :=
| Clear (field : string)
| Publish (topic : string) (msg : string).

Definition is_trigger (topic : string) (e : Event) : bool :=
  match e with
  | Publish t m => String.eqb t topic && String.eqb m "e_trigger"
  | Clear _ => false
  end.

Definition triggers (topic : string) (tr : list Event) : nat :=
  length (filter (fun e => is_trigger topic e = true) tr).

(** [reset_before_trigger topic fields cleared tr]: in the actions [tr], every
    trigger published on [topic] comes after all of [fields] were cleared
    since the previous trigger; [cleared] lists what has been cleared since
    then. *)
Fixpoint reset_before_trigger (topic : string) (fields cleared : list string)
         (tr : list Event) : bool :=
  match tr with
  | [] => true
  | Clear f :: tr' => reset_before_trigger topic fields (f :: cleared) tr'
  | Publish t m :: tr' =>
    if is_trigger topic (Publish t m)
    then forallb (fun f => existsb (String.eqb f) cleared) fields
         && reset_before_trigger topic fields [] tr'
    else reset_before_trigger topic fields cleared tr'
  end.

(** ** find_objects *)

Module find_objects.

Definition EVENT_IN_TOPIC := "/mcr_perception/object_detector/event_in".

Definition outcomes := ["objects_found"; "no_objects_found"].

Record Self := mkSelf {
  object_list : attr (option ObjectList);
  event_msg : attr string;
  retries : Z
}.

Record State := mkState {
  self : Self;
  found_objects : option (list Object);   (* userdata.found_objects *)
  trace : list Event
}.

Inductive Callback :=
| ObjectListMsg (event : ObjectList)
| EventOutMsg (data : string).

Definition object_list_cb (s : Self) (event : ObjectList) : Self :=
  mkSelf (Has (Some event)) (event_msg s) (retries s).

Definition event_out_cb (s : Self) (data : string) : Self :=
  mkSelf (object_list s) (Has data) (retries s).

Definition deliver (s : Self) (cb : Callback) : Self :=
  match cb with
  | ObjectListMsg event => object_list_cb s event
  | EventOutMsg data => event_out_cb s data
  end.

Record Tick := mkTick {
  arrivals : list Callback;   (* callbacks run since the previous poll *)
  now : Z                     (* rospy.Time.now() read at this poll *)
}.

(** Callbacks that run after the waiting loop of an attempt has ended.
    The step reads [self.object_list] again on lines 59, 66 and 70, once
    for each operand; a batch is what the subscriber thread delivers
    before one of these reads. *)
Record Late := mkLate {
  before_check : list Callback;   (* before line 59 reads the attribute *)
  within_check : list Callback;   (* between the two reads of line 59 *)
  before_final : list Callback;   (* lines 60-65, before line 66 reads it *)
  within_final : list Callback;   (* between the two reads of line 66 *)
  before_store : list Callback    (* before line 70 reads it *)
}.

Definition no_late : Late := mkLate [] [] [] [] [].

Record AttemptEnv := mkAttemptEnv {
  start_time : Z;
  ticks : list Tick;
  late : Late
}.

(** rospy.Duration.from_sec(10.0) *)
Definition timeout : Z := 10 * 1000000000.

Inductive WaitEnd := Done | Failed | TimedOut | StillWaiting | Faulted.

(** Lines 49-56: which branch of the poll is taken. *)
Definition poll (s : Self) (start : Z) (t : Tick) : res (option WaitEnd) :=
  let* m := getattr (event_msg s) in
  let* done := (if String.eqb m "e_done"
                then let* ol := getattr (object_list s) in Ok (is_not_none ol)
                else Ok false) in
  if done then Ok (Some Done)
  else
    let* m' := getattr (event_msg s) in
    if String.eqb m' "e_failed" then Ok (Some Failed)
    else if (now t - start >? timeout)%Z then Ok (Some TimedOut)
    else Ok None.

(** Lines 48-57: the waiting loop. *)
Fixpoint wait (start : Z) (script : list Tick) (s : Self) : Self * WaitEnd :=
  match script with
  | [] => (s, StillWaiting)
  | t :: script' =>
    let s' := foldl deliver s (arrivals t) in
    match poll s' start t with
    | AttributeError => (s', Faulted)
    | Ok (Some e) => (s', e)
    | Ok None => wait start script' s'
    end
  end.

(** [not self.object_list or len(self.object_list.objects) <= 0], when no
    callback runs between the two reads of the attribute. *)
Definition no_objects (s : Self) : res bool :=
  let* ol := getattr (object_list s) in
  match ol with
  | None => Ok true
  | Some l => Ok (Z.of_nat (length (objects l)) <=? 0)%Z
  end.

(** The same test with the callbacks [b1] run before the first read of
    [self.object_list] and [b2] between the first and the second; the
    second operand is evaluated only when the first read gave a message. *)
Definition no_objects_racing (b1 b2 : list Callback) (s : Self)
  : Self * res bool :=
  let s1 := foldl deliver s b1 in
  match getattr (object_list s1) with
  | AttributeError => (s1, AttributeError)
  | Ok None => (s1, Ok true)
  | Ok (Some _) =>
    let s2 := foldl deliver s1 b2 in
    (s2, let* ol := getattr (object_list s2) in
         match ol with
         | None => AttributeError   (* [None] has no attribute [objects] *)
         | Some l => Ok (Z.of_nat (length (objects l)) <=? 0)%Z
         end)
  end.

(** Lines 39-43: clear the latch, then publish the trigger. *)
Definition reset_and_trigger (st : State) : State :=
  let s1 := mkSelf (Has None) (event_msg (self st)) (retries (self st)) in
  let s2 := mkSelf (object_list s1) (Has "") (retries s1) in
  mkState s2 (found_objects st)
          (trace st ++ [Clear "object_list"; Clear "event_msg";
                        Publish EVENT_IN_TOPIC "e_trigger"]).

(** One pass through the body of the [for] loop, up to the end of the
    waiting loop. *)
Definition attempt (e : AttemptEnv) (st : State) : State * WaitEnd :=
  let st1 := reset_and_trigger st in
  let (s', w) := wait (start_time e) (ticks e) (self st1) in
  (mkState s' (found_objects st1) (trace st1), w).

Inductive LoopEnd := Exhausted | Broke | LoopPending | LoopFaulted.

(** Lines 38-64: [for i in range(self.retries)], attempts [i], [i+1], ...
    with [n] of them left.  [last] holds the late callbacks of the attempt
    made before; the loop gives back those of the last attempt it made. *)
Fixpoint attempts (env : nat -> AttemptEnv) (i n : nat) (st : State)
         (last : Late) : State * LoopEnd * Late :=
  match n with
  | O => (st, Exhausted, last)
  | S n' =>
    let l := late (env i) in
    match attempt (env i) st with
    | (st', StillWaiting) => (st', LoopPending, l)
    | (st', Faulted) => (st', LoopFaulted, l)
    | (st', _) =>
      match no_objects_racing (before_check l) (within_check l) (self st') with
      | (s, AttributeError) =>
        (mkState s (found_objects st') (trace st'), LoopFaulted, l)
      | (s, Ok true) =>
        attempts env (S i) n' (mkState s (found_objects st') (trace st')) l
      | (s, Ok false) =>
        (mkState s (found_objects st') (trace st'), Broke, l)
      end
    end
  end.

(** Lines 37-71.  The reads of lines 66 and 70 come with the late callbacks
    of the last attempt made.  With [retries <= 0] no attempt is made and
    no script of [env] is used: the latch is judged as the call found
    it. *)
Definition execute (env : nat -> AttemptEnv) (st : State)
  : State * completion :=
  let st0 := mkState (self st) None (trace st) in
  match attempts env 0 (Z.to_nat (retries (self st0))) st0 no_late with
  | (st1, LoopPending, _) => (st1, Pending)
  | (st1, LoopFaulted, _) => (st1, Raise "AttributeError")
  | (st1, _, l) =>
    match no_objects_racing (before_final l) (within_final l) (self st1) with
    | (s, AttributeError) =>
      (mkState s (found_objects st1) (trace st1), Raise "AttributeError")
    | (s, Ok true) =>
      (mkState s (found_objects st1) (trace st1),
       Return (Some "no_objects_found"))
    | (s, Ok false) =>
      let s' := foldl deliver s (before_store l) in
      match object_list s' with
      | Has (Some ol) =>
        (mkState s' (Some (objects ol)) (trace st1),
         Return (Some "objects_found"))
      | _ => (mkState s' (found_objects st1) (trace st1),
              Raise "AttributeError")
      end
    end
  end.

(** *** Vocabulary of the properties *)

(** The latch as lines 39-40 leave it. *)
Definition fresh (r : Z) : Self := mkSelf (Has None) (Has "") r.

(** An attempt seen from outside: how its waiting loop ends and what the
    latch holds then.  Both are read off the loop run on a fresh latch. *)
Definition ending (e : AttemptEnv) : WaitEnd :=
  snd (wait (start_time e) (ticks e) (fresh 0)).

Definition latched (e : AttemptEnv) : option ObjectList :=
  match object_list (fst (wait (start_time e) (ticks e) (fresh 0))) with
  | Has ol => ol
  | Missing => None
  end.

Definition yield (e : AttemptEnv) : list Object :=
  match latched e with
  | Some l => objects l
  | None => []
  end.

(** Both latch attributes exist. *)
Definition armed (s : Self) : Prop :=
  (exists ol, object_list s = Has ol) /\ (exists m, event_msg s = Has m).

(** The attempt ends and leaves no object. *)
Definition quiet (e : AttemptEnv) : Prop :=
  ending e <> StillWaiting /\ yield e = [].

(** The attempt ends and leaves at least one object. *)
Definition hit (e : AttemptEnv) : Prop :=
  ending e <> StillWaiting /\ yield e <> [].

(** No callback runs between the last poll of the attempt and the next
    time the latch is cleared, or the return of the step. *)
Definition calm (e : AttemptEnv) : Prop := late e = no_late.

(** What one attempt adds to the trace. *)
Definition cycle_actions : list Event :=
  [Clear "object_list"; Clear "event_msg"; Publish EVENT_IN_TOPIC "e_trigger"].

Definition latch_fields : list string := ["object_list"; "event_msg"].

(** Everything the callbacks delivered during one attempt. *)
Definition delivered (e : AttemptEnv) : list Callback :=
  concat (arrivals <$> ticks e).

(** The state after attempt [e] ended, started with [r] retries. *)
Definition after_attempt (e : AttemptEnv) (r : Z) (s : Self) : Prop :=
  exists ev, s = mkSelf (Has (latched e)) ev r.

(** What is known when [attempts env i n st] stops in [st'] with [le],
    whatever the callbacks do. *)
Definition loop_shape (env : nat -> AttemptEnv) (i n : nat)
           (st st' : State) (le : LoopEnd) : Prop :=
  found_objects st' = found_objects st /\
  retries (self st') = retries (self st) /\
  exists k, (k <= n)%nat /\ ((0 < n)%nat -> (1 <= k)%nat) /\
    trace st' = trace st ++ concat (replicate k cycle_actions) /\
    match le with
    | Exhausted => (n = 0%nat -> st' = st) /\ ((0 < n)%nat -> armed (self st'))
    | Broke => armed (self st')
    | LoopPending =>
      exists j, (j < n)%nat /\ ending (env (i + j)%nat) = StillWaiting
    | LoopFaulted => False
    end.

(** What is known when [attempts env i n st] stops in [st'] with [le] and
    every attempt was calm. *)
Definition loop_post (env : nat -> AttemptEnv) (i n : nat)
           (st st' : State) (le : LoopEnd) : Prop :=
  found_objects st' = found_objects st /\
  retries (self st') = retries (self st) /\
  match le with
  | Exhausted =>
    trace st' = trace st ++ concat (replicate n cycle_actions) /\
    (forall j, (j < n)%nat -> quiet (env (i + j)%nat)) /\
    (n = 0%nat -> st' = st) /\
    (forall m, n = S m ->
               after_attempt (env (i + m)%nat) (retries (self st)) (self st'))
  | Broke =>
    exists k, (k < n)%nat /\
      trace st' = trace st ++ concat (replicate (S k) cycle_actions) /\
      (forall j, (j < k)%nat -> quiet (env (i + j)%nat)) /\
      hit (env (i + k)%nat) /\
      after_attempt (env (i + k)%nat) (retries (self st)) (self st')
  | LoopPending =>
    exists k, (k < n)%nat /\
      trace st' = trace st ++ concat (replicate (S k) cycle_actions) /\
      (forall j, (j < k)%nat -> quiet (env (i + j)%nat)) /\
      ending (env (i + k)%nat) = StillWaiting
  | LoopFaulted => False
  end.

End find_objects.

(** ** do_visual_servoing *)

Module do_visual_servoing.

Definition outcomes := ["succeeded"; "failed"; "timeout"; "lost_object"].

(** What the call [self.do_vs()] does: it raises [rospy.ServiceException],
    it raises something else, or it returns a response. *)
Inductive ServiceResult :=
| ServiceException
| OtherException (exn : string)
| Response (error_code : Z).

(** [vscount] is an input and output key; its content is opaque here.
    Line 115 catches [rospy.ServiceException] and nothing else. *)
Definition execute (do_vs : ServiceResult) (vscount : Z)
  : Z * completion :=
  match do_vs with
  | ServiceException => (0%Z, Return (Some "failed"))
  | OtherException exn => (vscount, Raise exn)
  | Response error_code =>
    if (error_code =? 0)%Z then (0%Z, Return (Some "succeeded"))
    else if (error_code =? -1)%Z then (vscount, Return (Some "failed"))
    else if (error_code =? -2)%Z then (vscount, Return (Some "timeout"))
    else if (error_code =? -3)%Z then (vscount, Return (Some "lost_object"))
    else (vscount, Return None)
  end.

End do_visual_servoing.

(** ** find_cavities *)

Module find_cavities.

Definition EVENT_IN_TOPIC := "/mcr_perception/contour_finder/input/event_in".
Definition OBJECT_NAME_TOPIC :=
  "/mcr_perception/cavity_template_publisher/input/object_name".

Definition outcomes := ["succeeded"; "not_all_cavities_found"; "timeout"].

(** The float64 literal [0.1]: 0x1.999999999999ap-4. *)
Definition matching_threshold : Q := 3602879701896397 # 36028797018963968.

Record Self := mkSelf {
  cavity : option Cavity;
  frame_id : option string
}.

Record State := mkState {
  self : Self;
  found_cavities : list Cavity;   (* userdata.found_cavities *)
  trace : list Event
}.

Definition cavity_cb (s : Self) (c : Cavity) : Self :=
  mkSelf (Some c) (frame_id s).

Record Tick := mkTick {
  arrivals : list Cavity;   (* cavity messages received since the previous poll *)
  is_shutdown : bool;       (* rospy.is_shutdown() at this poll *)
  now : Z                   (* rospy.Time.now() read at this poll *)
}.

Record CycleEnv := mkCycleEnv {
  start_time : Z;
  ticks : list Tick
}.

(** [transformPose] gives the pose in the target frame, or [None] when tf
    raises one of the three exceptions the step catches (line 175); a
    listener that raises anything else is not described here. *)
Record Env := mkEnv {
  cycles : nat -> CycleEnv;   (* one script per subject *)
  transformPose : string -> Pose -> option Pose
}.

(** rospy.Duration.from_sec(5.0) *)
Definition timeout : Z := 5 * 1000000000.

Inductive WaitEnd :=
| Received (c : Cavity)
| Shutdown
| TimedOut
| StillWaiting.

(** Lines 158-169. *)
Fixpoint wait (start : Z) (script : list Tick) (s : Self) : Self * WaitEnd :=
  match script with
  | [] => (s, StillWaiting)
  | t :: script' =>
    let s' := foldl cavity_cb s (arrivals t) in
    if is_shutdown t then (s', Shutdown)
    else
      match cavity s' with
      | Some c => (s', Received c)
      | None =>
        if (now t - start >? timeout)%Z then (s', TimedOut)
        else wait start script' s'
      end
  end.

(** Lines 152-154. *)
Definition reset_and_trigger (obj : Object) (st : State) : State :=
  mkState (mkSelf None (frame_id (self st))) (found_cavities st)
          (trace st ++ [Clear "cavity";
                        Publish OBJECT_NAME_TOPIC (name obj);
                        Publish EVENT_IN_TOPIC "e_trigger"]).

Inductive Acquired :=
| Collected (local_found_cavities : list Cavity)
| AcqTimeout
| AcqPending.

(** Lines 151-169: one cycle per selected object; [i] is the position of
    the head of [objs] in [selected_objects].  The message that ends the
    wait is the one that lines 160-162 log, rename and append: no callback
    replaces it in between. *)
Fixpoint acquire (env : Env) (i : nat) (objs : list Object)
         (local_found_cavities : list Cavity) (st : State)
  : State * Acquired :=
  match objs with
  | [] => (st, Collected local_found_cavities)
  | obj :: objs' =>
    let st1 := reset_and_trigger obj st in
    let e := cycles env i in
    match wait (start_time e) (ticks e) (self st1) with
    | (s', Received c) =>
      let c' := mkCavity (name obj) (matching_error c) (cavity_pose c) in
      let s'' := mkSelf (Some c') (frame_id s') in
      acquire env (S i) objs' (local_found_cavities ++ [c'])
              (mkState s'' (found_cavities st1) (trace st1))
    | (s', Shutdown) =>
      acquire env (S i) objs' local_found_cavities
              (mkState s' (found_cavities st1) (trace st1))
    | (s', TimedOut) =>
      (mkState s' (found_cavities st1) (trace st1), AcqTimeout)
    | (s', StillWaiting) =>
      (mkState s' (found_cavities st1) (trace st1), AcqPending)
    end
  end.

(** [if self.frame_id:] *)
Definition truthy (f : option string) : option string :=
  match f with
  | Some "" => None
  | other => other
  end.

(** Lines 171-176. *)
Definition transform_cavity (env : Env) (f : string) (c : Cavity) : Cavity :=
  match transformPose env f (cavity_pose c) with
  | Some p => mkCavity (object_name c) (matching_error c) p
  | None => c
  end.

Definition transform_all (env : Env) (f : option string)
           (local_found_cavities : list Cavity) : list Cavity :=
  match truthy f with
  | Some fr => transform_cavity env fr <$> local_found_cavities
  | None => local_found_cavities
  end.

(** Lines 181-186: the inner loop over [enumerate(userdata.found_cavities)],
    at index [idx] with [n] entries left to visit. *)
Fixpoint scan_found (cav : Cavity) (n idx : nat) (found : list Cavity)
         (exists_ : bool) : list Cavity * bool :=
  match n with
  | O => (found, exists_)
  | S n' =>
    match found !! idx with
    | None => (found, exists_)
    | Some c =>
      if String.eqb (object_name cav) (object_name c) then
        let found' :=
          if Qltb (matching_error cav) (matching_error c)
          then <[idx := cav]> found
          else found in
        scan_found cav n' (S idx) found' true
      else scan_found cav n' (S idx) found exists_
    end
  end.

(** Lines 180-190: the body of the outer loop, for one new cavity. *)
Definition merge_one (threshold : Q) (found : list Cavity) (cav : Cavity)
  : list Cavity :=
  let (found', exists_) := scan_found cav (length found) 0 found false in
  if exists_ then found'
  else if Qltb (matching_error cav) threshold then found' ++ [cav]
  else found'.

(** Lines 179-190. *)
Definition merge (threshold : Q) (found local_found_cavities : list Cavity)
  : list Cavity :=
  foldl (merge_one threshold) found local_found_cavities.

(** Lines 192-195. *)
Definition classify (found : list Cavity) (selected_objects : list Object)
  : string :=
  if Nat.eqb (length found) (length selected_objects)
  then "succeeded"
  else "not_all_cavities_found".

(** Lines 149-195.  The latch is left as the acquisition loop leaves it:
    nothing reads it before line 152 clears it again. *)
Definition execute (env : Env) (selected_objects : list Object) (st : State)
  : State * completion :=
  match acquire env 0 selected_objects [] st with
  | (st1, AcqTimeout) => (st1, Return (Some "timeout"))
  | (st1, AcqPending) => (st1, Pending)
  | (st1, Collected local_found_cavities) =>
    let local' := transform_all env (frame_id (self st1)) local_found_cavities in
    let found' := merge matching_threshold (found_cavities st1) local' in
    (mkState (self st1) found' (trace st1),
     Return (Some (classify found' selected_objects)))
  end.

(** *** Vocabulary of the properties *)

(** How the waiting loop of one cycle ends, read off the loop run on a
    cleared latch. *)
Definition cycle_end (e : CycleEnv) : WaitEnd :=
  snd (wait (start_time e) (ticks e) (mkSelf None None)).

(** The cycle leaves the loop without a timeout. *)
Definition passes (e : CycleEnv) : Prop :=
  (exists c, cycle_end e = Received c) \/ cycle_end e = Shutdown.

(** The cavities the acquisition loop gathers when no cycle times out: one
    per cycle that received a cavity, under the name of its subject. *)
Fixpoint collected (env : Env) (i : nat) (objs : list Object) : list Cavity :=
  match objs with
  | [] => []
  | obj :: objs' =>
    match cycle_end (cycles env i) with
    | Received c =>
      mkCavity (name obj) (matching_error c) (cavity_pose c)
      :: collected env (S i) objs'
    | _ => collected env (S i) objs'
    end
  end.

(** What the cycle for one subject adds to the trace. *)
Definition cycle_actions (obj : Object) : list Event :=
  [Clear "cavity"; Publish OBJECT_NAME_TOPIC (name obj);
   Publish EVENT_IN_TOPIC "e_trigger"].

Definition latch_fields : list string := ["cavity"].

(** Everything the callback delivered during one cycle. *)
Definition delivered (e : CycleEnv) : list Cavity :=
  concat (arrivals <$> ticks e).

(** The number of distinct object names in a result set. *)
Definition unique_identities (found : list Cavity) : nat :=
  length (remove_dups (object_name <$> found)).

End find_cavities.

(** ** Vocabulary of the properties *)

Module fusion.
Import find_cavities.

Definition same_name (cav c : Cavity) : bool :=
  String.eqb (object_name cav) (object_name c).

(** What one visit of the inner loop leaves in the slot it looks at. *)
Definition better (cav c : Cavity) : Cavity :=
  if same_name cav c && Qltb (matching_error cav) (matching_error c)
  then cav else c.

Definition admissible (threshold : Q) (c : Cavity) : Prop :=
  (matching_error c < threshold)%Q.

(** The invariant of a result set [found], relative to the candidates
    [observed] that have been merged into it since it was empty. *)
Record ResultSetInv (threshold : Q) (observed found : list Cavity) : Prop := {
  inv_unique : NoDup (object_name <$> found);
  inv_observed : forall e, e ∈ found -> e ∈ observed /\ admissible threshold e;
  inv_minimal : forall e x,
      e ∈ found -> x ∈ observed -> object_name x = object_name e ->
      admissible threshold x ->
      (matching_error e <= matching_error x)%Q;
  inv_present : forall x,
      x ∈ observed -> admissible threshold x ->
      exists e, e ∈ found /\ object_name e = object_name x
}.

(** Every entry named like [x] scores strictly worse than [x]. *)
Definition beats (x : Cavity) (found : list Cavity) : Prop :=
  forall e, e ∈ found -> object_name e = object_name x ->
            (matching_error x < matching_error e)%Q.

(** [x] is the entry of its name, and the only one. *)
Definition holds (x : Cavity) (found : list Cavity) : Prop :=
  (exists e, e ∈ found /\ object_name e = object_name x) /\
  forall y, y ∈ found -> object_name y = object_name x -> y = x.

(** Successive invocations merge one batch after the other. *)
Definition merge_batches (threshold : Q) (found : list Cavity)
           (batches : list (list Cavity)) : list Cavity :=
  foldl (merge threshold) found batches.

Definition A (score : Q) : Cavity := mkCavity "A" score (mkPose "base_link" 0).
Definition B (score : Q) : Cavity := mkCavity "B" score (mkPose "base_link" 0).

End fusion.

(** ** Sample runs *)

Module samples.

Definition cup : Object := mkObject "cup" (mkPose "camera" 0).
Definition nut : Object := mkObject "nut" (mkPose "camera" 1).
Definition bolt : Object := mkObject "bolt" (mkPose "camera" 2).

(** A tenth of a second, the period of the polls. *)
Definition tenth : Z := 100000000.

Module objects.
Import find_objects.

(** [n] polls a tenth of a second apart, the first at [from] tenths, during
    which nothing arrives. *)
Definition idle (from n : nat) : list Tick :=
  (fun k => mkTick [] (Z.of_nat k * tenth)) <$> seq from n.

(** Nothing arrives; the poll at 10.1 s finds the deadline passed. *)
Definition silent : AttemptEnv := mkAttemptEnv 0 (idle 0 102) no_late.

(** The detector reports a failure. *)
Definition failing : AttemptEnv :=
  mkAttemptEnv 0 [mkTick [] 0; mkTick [EventOutMsg "e_failed"] tenth] no_late.

(** The detector answers with one object and "e_done". *)
Definition answering : AttemptEnv :=
  mkAttemptEnv 0 [mkTick [] 0;
                  mkTick [ObjectListMsg (mkObjectList [cup])] tenth;
                  mkTick [EventOutMsg "e_done"] (2 * tenth)]
               no_late.

(** An object list arrives, "e_done" never does: the wait times out. *)
Definition list_without_done : AttemptEnv :=
  mkAttemptEnv 0 (mkTick [] 0
                  :: mkTick [ObjectListMsg (mkObjectList [cup])] tenth
                  :: idle 2 100)
               no_late.

(** An object list arrives, followed by a failure event. *)
Definition list_then_failed : AttemptEnv :=
  mkAttemptEnv 0 [mkTick [] 0;
                  mkTick [ObjectListMsg (mkObjectList [cup])] tenth;
                  mkTick [EventOutMsg "e_failed"] (2 * tenth)]
               no_late.

(** The detector answers with one object and "e_done"; a second, empty
    object list reaches the subscriber after line 66 has looked at the
    latch and before line 70 reads it. *)
Definition answered_twice : AttemptEnv :=
  mkAttemptEnv 0 (ticks answering)
               (mkLate [] [] [] [] [ObjectListMsg (mkObjectList [])]).

(** Two attempts without objects, then an answer. *)
Definition third_time (i : nat) : AttemptEnv :=
  match i with
  | 0%nat => silent
  | 1%nat => failing
  | _ => answering
  end.

(** A step configured with three retries, whose slot still holds the
    result of an earlier invocation. *)
Definition step3 : State :=
  mkState (mkSelf Missing Missing 3) (Some [nut]) [].

End objects.

Module cavities.
Import find_cavities.

Definition seen (score : Q) : Cavity :=
  mkCavity "" score (mkPose "camera" 0).

(** A cavity with the given matching error arrives before the second poll. *)
Definition found_at (score : Q) : CycleEnv :=
  mkCycleEnv 0 [mkTick [] false 0; mkTick [seen score] false tenth].

(** No cavity arrives; the poll at 5.1 s finds the deadline passed. *)
Definition silent : CycleEnv :=
  mkCycleEnv 0 ((fun k => mkTick [] false (Z.of_nat k * tenth)) <$> seq 0 52).

Definition no_tf : string -> Pose -> option Pose := fun _ _ => None.

(** Three subjects; the third cavity matches too badly to be accepted. *)
Definition two_of_three : Env :=
  mkEnv (fun i => match i with
                  | 0%nat => found_at (3#100)
                  | 1%nat => found_at (5#100)
                  | _ => found_at (1#2)
                  end) no_tf.

(** Three subjects; the wait for the second one times out. *)
Definition second_times_out : Env :=
  mkEnv (fun i => match i with
                  | 0%nat => found_at (3#100)
                  | 1%nat => silent
                  | _ => found_at (2#100)
                  end) no_tf.

Definition subjects : list Object := [cup; nut; bolt].

Definition empty_step : State := mkState (mkSelf None None) [] [].

(** A result set from an earlier invocation. *)
Definition earlier_step : State :=
  mkState (mkSelf None None) [mkCavity "cup" (8#100) (mkPose "camera" 0)] [].

End cavities.

End samples.

(** ** transform_object_poses *)

Module transform_object_poses.

Definition outcomes := ["succeeded"; "no_frame_specified"; "tf_error"].

(** What a call into the tf listener does: it returns, it raises one of
    [LookupException], [ConnectivityException], [ExtrapolationException]
    (the three the step catches), or it raises something else. *)
Inductive tf_call (A : Type) :=
| TfReturn (a : A)
| TfCaught
| TfUncaught (exn : string).
Arguments TfReturn {A} a.
Arguments TfCaught {A}.
Arguments TfUncaught {A} exn.

(** The listener as the step meets it; the first argument is the position
    of the object in [found_objects], the second the target frame. *)
Record TfEnv := mkTfEnv {
  waitForTransform : nat -> string -> Pose -> tf_call unit;
  transformPose : nat -> string -> Pose -> tf_call Pose
}.

Inductive LoopEnd :=
| Finished
| TfError
| Raised (exn : string).

(** Lines 87-95: the loop over the objects from position [i] on.  The list
    it gives back is the list as the loop leaves it: [obj.pose = ...]
    updates the object in place. *)
Fixpoint transform_from (tf : TfEnv) (frame_id : string) (i : nat)
         (objs : list Object) : list Object * LoopEnd :=
  match objs with
  | [] => ([], Finished)
  | obj :: rest =>
    match waitForTransform tf i frame_id (object_pose obj) with
    | TfCaught => (obj :: rest, TfError)
    | TfUncaught exn => (obj :: rest, Raised exn)
    | TfReturn _ =>
      match transformPose tf i frame_id (object_pose obj) with
      | TfCaught => (obj :: rest, TfError)
      | TfUncaught exn => (obj :: rest, Raised exn)
      | TfReturn p =>
        let (rest', e) := transform_from tf frame_id (S i) rest in
        (mkObject (name obj) p :: rest', e)
      end
    end
  end.

(** [found_objects] is the slot of that name; [None] is Python's [None],
    which [for obj in ...] cannot iterate. *)
Definition execute (tf : TfEnv) (frame_id : option string)
           (found_objects : option (list Object))
  : option (list Object) * completion :=
  match find_cavities.truthy frame_id with
  | Some f =>
    match found_objects with
    | None => (None, Raise "TypeError")
    | Some objs =>
      match transform_from tf f 0 objs with
      | (objs', Finished) => (Some objs', Return (Some "succeeded"))
      | (objs', TfError) => (Some objs', Return (Some "tf_error"))
      | (objs', Raised exn) => (Some objs', Raise exn)
      end
    end
  | None => (found_objects, Return (Some "no_frame_specified"))
  end.

(** *** Vocabulary of the properties *)

(** The pose the step gives the object at position [i], when both calls
    return. *)
Definition tf_pose (tf : TfEnv) (frame_id : string) (i : nat) (obj : Object)
  : option Pose :=
  match waitForTransform tf i frame_id (object_pose obj) with
  | TfReturn _ =>
    match transformPose tf i frame_id (object_pose obj) with
    | TfReturn p => Some p
    | _ => None
    end
  | _ => None
  end.

(** The first call that does not return raises an exception the step
    catches. *)
Definition tf_caught (tf : TfEnv) (frame_id : string) (i : nat) (obj : Object)
  : bool :=
  match waitForTransform tf i frame_id (object_pose obj) with
  | TfCaught => true
  | TfUncaught _ => false
  | TfReturn _ =>
    match transformPose tf i frame_id (object_pose obj) with
    | TfCaught => true
    | _ => false
    end
  end.

(** The listener raises nothing but the three exceptions the step catches. *)
Definition tame (tf : TfEnv) : Prop :=
  forall i f p,
    (forall exn, waitForTransform tf i f p <> TfUncaught exn) /\
    (forall exn, transformPose tf i f p <> TfUncaught exn).

End transform_object_poses.

(** ** Further vocabulary *)

Module clocks.

(** Some poll of the attempt reads the clock past the deadline. *)
Definition objects_late (e : find_objects.AttemptEnv) : Prop :=
  exists t, t ∈ find_objects.ticks e /\
            (find_objects.now t - find_objects.start_time e
             > find_objects.timeout)%Z.

(** Some poll of the cycle reads the clock past the deadline. *)
Definition cavity_late (e : find_cavities.CycleEnv) : Prop :=
  exists t, t ∈ find_cavities.ticks e /\
            (find_cavities.now t - find_cavities.start_time e
             > find_cavities.timeout)%Z.

End clocks.

Module result_sets.

(** What the fusion loop looks at in a cavity. *)
Definition key (c : Cavity) : string * Q := (object_name c, matching_error c).

(** Nothing that [cav] could improve or add is left in [found]. *)
Definition settled (threshold : Q) (found : list Cavity) (cav : Cavity) : Prop :=
  (forall e, e ∈ found -> object_name e = object_name cav ->
             (matching_error e <= matching_error cav)%Q) /\
  ((exists e, e ∈ found /\ object_name e = object_name cav) \/
   ~ (matching_error cav < threshold)%Q).

(** [found'] keeps every entry of [found] in its place, under its name, at
    a matching error that is no worse. *)
Definition refines (found found' : list Cavity) : Prop :=
  forall i e, found !! i = Some e ->
    exists e', found' !! i = Some e' /\
               object_name e' = object_name e /\
               (matching_error e' <= matching_error e)%Q.

End result_sets.

(** ** More sample runs *)

Module scenarios.
Import samples.

Definition base : string := "base_link".

(** A listener that knows every frame and moves each pose into the target
    frame. *)
Definition tf_fine : transform_object_poses.TfEnv :=
  transform_object_poses.mkTfEnv
    (fun _ _ _ => transform_object_poses.TfReturn tt)
    (fun _ f p => transform_object_poses.TfReturn
                    (mkPose f (pose_data p + 100))).

(** A listener that cannot connect the frame of the second object. *)
Definition tf_second_fails : transform_object_poses.TfEnv :=
  transform_object_poses.mkTfEnv
    (fun i _ _ => match i with
                  | 1%nat => transform_object_poses.TfCaught
                  | _ => transform_object_poses.TfReturn tt
                  end)
    (fun _ f p => transform_object_poses.TfReturn
                    (mkPose f (pose_data p + 100))).



(** The node is shut down when the first cycle polls. *)
Definition shut_down : find_cavities.Env :=
  find_cavities.mkEnv
    (fun _ => find_cavities.mkCycleEnv
                0 [find_cavities.mkTick [] true 0])
    cavities.no_tf.

(** The frame of the camera cannot be resolved. *)
Definition all_found_no_tf : find_cavities.Env :=
  find_cavities.mkEnv
    (fun _ => cavities.found_at (3#100)) cavities.no_tf.

Definition all_found_tf : find_cavities.Env :=
  find_cavities.mkEnv
    (fun _ => cavities.found_at (3#100))
    (fun f p => Some (mkPose f (pose_data p + 100))).

(** A cavity arrives before the second poll; the script goes on until the
    clock is past the deadline. *)
Definition patient (score : Q) : find_cavities.CycleEnv :=
  find_cavities.mkCycleEnv
    0 (find_cavities.ticks (cavities.found_at score)
       ++ find_cavities.ticks cavities.silent).

(** The second of three subjects gets no answer. *)
Definition second_unanswered : find_cavities.Env :=
  find_cavities.mkEnv
    (fun i => match i with
              | 1%nat => cavities.silent
              | _ => patient (3#100)
              end) cavities.no_tf.

Definition framed_step : find_cavities.State :=
  find_cavities.mkState (find_cavities.mkSelf None (Some base)) [] [].

End scenarios.

(** * Properties *)

(** ** Comparison of scores *)

Lemma Qltb_lt (x y : Q) : Qltb x y = true <-> (x < y)%Q.
Proof.
  unfold Qltb. rewrite negb_true_iff. split.
  - intros H. apply Qnot_le_lt. intros Hle.
    apply Qle_bool_iff in Hle. congruence.
  - intros H. destruct (Qle_bool y x) eqn:E; [|reflexivity].
    apply Qle_bool_iff in E. exfalso. exact (Qlt_not_le _ _ H E).
Qed.

Lemma Qltb_ge (x y : Q) : Qltb x y = false <-> (y <= x)%Q.
Proof.
  unfold Qltb. rewrite negb_false_iff. apply Qle_bool_iff.
Qed.

Lemma Qltb_not_lt (x y : Q) : Qltb x y = false <-> ~ (x < y)%Q.
Proof.
  rewrite <- Qltb_lt. destruct (Qltb x y); split; congruence.
Qed.

(** ** The fusion loop, one incoming cavity at a time *)

Section FusionStep.
Import find_cavities fusion.

Variable threshold : Q.

Lemma same_name_eq (cav c : Cavity) :
  same_name cav c = true <-> object_name cav = object_name c.
Proof. unfold same_name. apply String.eqb_eq. Qed.

Lemma same_name_neq (cav c : Cavity) :
  same_name cav c = false <-> object_name cav <> object_name c.
Proof. unfold same_name. apply String.eqb_neq. Qed.

Lemma better_name (cav c : Cavity) :
  object_name (better cav c) = object_name c.
Proof.
  unfold better. destruct (same_name cav c) eqn:E; simpl; [|reflexivity].
  destruct (Qltb _ _); [|reflexivity]. now apply same_name_eq.
Qed.

Lemma better_names (cav : Cavity) (found : list Cavity) :
  object_name <$> (better cav <$> found) = object_name <$> found.
Proof.
  induction found as [|c found IH]; csimpl; [reflexivity|].
  now rewrite better_name, IH.
Qed.

(** The inner loop visits the entries from left to right; the entries
    before [idx] are final, those from [idx] on are still to be seen. *)
Lemma scan_found_spec (cav : Cavity) (rest pre : list Cavity) (ex : bool) :
  scan_found cav (length rest) (length pre) (pre ++ rest) ex
  = (pre ++ (better cav <$> rest), ex || existsb (same_name cav) rest).
Proof.
  revert pre ex. induction rest as [|c rest IH]; intros pre ex; simpl.
  - now rewrite orb_false_r.
  - rewrite list_lookup_middle by reflexivity.
    assert (Hshift : forall x : Cavity,
               S (length pre) = length (pre ++ [x])).
    { intros x. rewrite length_app. simpl. lia. }
    assert (Hsplit : forall x : Cavity,
               pre ++ x :: rest = (pre ++ [x]) ++ rest).
    { intros x. now rewrite <- app_assoc. }
    unfold better. fold (same_name cav c).
    destruct (same_name cav c) eqn:E; simpl.
    + destruct (Qltb (matching_error cav) (matching_error c)) eqn:L.
      * replace (<[length pre:=cav]> (pre ++ c :: rest))
          with ((pre ++ [cav]) ++ rest).
        2:{ rewrite <- (Nat.add_0_r (length pre)), insert_app_r.
            simpl. now rewrite <- app_assoc. }
        rewrite (Hshift cav), IH, <- app_assoc. simpl.
        now rewrite orb_true_r.
      * rewrite (Hsplit c), (Hshift c), IH, <- app_assoc. simpl.
        now rewrite orb_true_r.
    + rewrite (Hsplit c), (Hshift c), IH, <- app_assoc. reflexivity.
Qed.

Lemma better_absent (cav : Cavity) (found : list Cavity) :
  existsb (same_name cav) found = false -> better cav <$> found = found.
Proof.
  induction found as [|c found IH]; [reflexivity|].
  intros H. simpl in H. apply orb_false_iff in H as [Hc Hf].
  rewrite fmap_cons, IH by assumption.
  unfold better. now rewrite Hc.
Qed.

Lemma merge_one_spec (found : list Cavity) (cav : Cavity) :
  merge_one threshold found cav =
  if existsb (same_name cav) found then better cav <$> found
  else if Qltb (matching_error cav) threshold then found ++ [cav]
       else found.
Proof.
  unfold merge_one.
  pose proof (scan_found_spec cav found [] false) as H.
  simpl in H. rewrite H.
  destruct (existsb (same_name cav) found) eqn:E; [reflexivity|].
  now rewrite better_absent.
Qed.

Lemma existsb_same_name (cav : Cavity) (found : list Cavity) :
  existsb (same_name cav) found = true <->
  exists e, e ∈ found /\ object_name e = object_name cav.
Proof.
  rewrite existsb_exists. split.
  - intros (e & Hin & Hn). exists e. split.
    + now apply list_elem_of_In.
    + symmetry. now apply same_name_eq.
  - intros (e & Hin & Hn). exists e. split.
    + now apply list_elem_of_In.
    + apply same_name_eq. now symmetry.
Qed.

Lemma existsb_same_name_false (cav : Cavity) (found : list Cavity) :
  existsb (same_name cav) found = false <->
  forall e, e ∈ found -> object_name e <> object_name cav.
Proof.
  split.
  - intros H e Hin Hn.
    assert (existsb (same_name cav) found = true) as Ht
        by (apply existsb_same_name; eauto).
    congruence.
  - intros H. destruct (existsb (same_name cav) found) eqn:E; [|reflexivity].
    apply existsb_same_name in E as (e & Hin & Hn).
    now destruct (H e Hin).
Qed.

Lemma merge_one_length_present (found : list Cavity) (cav e : Cavity) :
  e ∈ found -> object_name cav = object_name e ->
  length (merge_one threshold found cav) = length found.
Proof.
  intros Hin Hn. rewrite merge_one_spec.
  replace (existsb (same_name cav) found) with true.
  - apply length_fmap.
  - symmetry. apply existsb_same_name. eauto.
Qed.

Lemma merge_one_lookup_present (found : list Cavity) (cav e : Cavity) (idx : nat) :
  existsb (same_name cav) found = true ->
  found !! idx = Some e ->
  merge_one threshold found cav !! idx = Some (better cav e).
Proof.
  intros Hex Hidx. rewrite merge_one_spec, Hex, list_lookup_fmap, Hidx.
  reflexivity.
Qed.

Lemma unique_name_unchanged (found : list Cavity) (cav e : Cavity) :
  NoDup (object_name <$> found) ->
  e ∈ found -> object_name cav = object_name e ->
  ~ (matching_error cav < matching_error e)%Q ->
  better cav <$> found = found.
Proof.
  intros Hnd Hin Hn Hlt.
  induction found as [|c found IH]; [reflexivity|].
  rewrite fmap_cons in Hnd. apply NoDup_cons in Hnd as [Hc Hnd].
  rewrite fmap_cons.
  apply elem_of_cons in Hin as [->|Hin].
  - f_equal.
    + unfold better.
      replace (Qltb (matching_error cav) (matching_error c)) with false
        by (symmetry; now apply Qltb_not_lt).
      now rewrite andb_false_r.
    + apply better_absent, existsb_same_name_false.
      intros e' He' Hn'. apply Hc. rewrite <- Hn, <- Hn'.
      now apply list_elem_of_fmap_2.
  - f_equal.
    + unfold better. replace (same_name cav c) with false; [reflexivity|].
      symmetry. apply same_name_neq. intros Hcc. apply Hc.
      rewrite <- Hcc, Hn. now apply list_elem_of_fmap_2.
    + now apply IH.
Qed.

End FusionStep.

(** ** The result-set invariant *)

Section FusionInvariant.
Import find_cavities fusion.

Variable threshold : Q.

Lemma better_cases (cav e : Cavity) :
  (better cav e = cav /\ object_name cav = object_name e /\
   (matching_error cav < matching_error e)%Q) \/
  (better cav e = e /\
   (object_name cav = object_name e ->
    (matching_error e <= matching_error cav)%Q)).
Proof.
  unfold better. destruct (same_name cav e) eqn:E; simpl.
  - destruct (Qltb (matching_error cav) (matching_error e)) eqn:L.
    + left. repeat split.
      * now apply same_name_eq.
      * now apply Qltb_lt.
    + right. split; [reflexivity|]. intros _. now apply Qltb_ge.
  - right. split; [reflexivity|]. intros Hn.
    apply same_name_neq in E. contradiction.
Qed.

Lemma inv_empty : ResultSetInv threshold [] [].
Proof.
  split.
  - rewrite fmap_nil. apply NoDup_nil_2.
  - intros e He. now apply elem_of_nil in He.
  - intros e x He. now apply elem_of_nil in He.
  - intros x Hx. now apply elem_of_nil in Hx.
Qed.

Lemma merge_one_inv (observed found : list Cavity) (cav : Cavity) :
  ResultSetInv threshold observed found ->
  ResultSetInv threshold (observed ++ [cav]) (merge_one threshold found cav).
Proof.
  intros [Hu Ho Hm Hp]. rewrite merge_one_spec.
  destruct (existsb (same_name cav) found) eqn:E.
  - (* an entry of that name exists: replace it if [cav] is better *)
    split.
    + now rewrite better_names.
    + intros e' He'. apply list_elem_of_fmap in He' as (e & -> & He).
      destruct (Ho e He) as [Hobs Hadm].
      destruct (better_cases cav e) as [(-> & Hn & Hlt) | (-> & _)].
      * split.
        -- apply elem_of_app. right. apply list_elem_of_singleton. reflexivity.
        -- unfold admissible in *. eapply Qlt_trans; eassumption.
      * split; [|assumption]. apply elem_of_app. now left.
    + intros e' x He' Hx Hn Hadm.
      apply list_elem_of_fmap in He' as (e & -> & He).
      rewrite better_name in Hn.
      apply elem_of_app in Hx as [Hx | Hx].
      * pose proof (Hm e x He Hx Hn Hadm) as Hle.
        destruct (better_cases cav e) as [(-> & Hn' & Hlt) | (-> & _)];
          [|assumption].
        apply Qlt_le_weak. eapply Qlt_le_trans; eassumption.
      * apply list_elem_of_singleton in Hx as ->.
        destruct (better_cases cav e) as [(-> & _) | (-> & Hge)].
        -- apply Qle_refl.
        -- now apply Hge.
    + intros x Hx Hadm.
      assert (exists e, e ∈ found /\ object_name e = object_name x)
        as (e & He & Hn).
      { apply elem_of_app in Hx as [Hx | Hx].
        - now apply Hp.
        - apply list_elem_of_singleton in Hx as ->.
          now apply existsb_same_name. }
      exists (better cav e). split.
      * now apply list_elem_of_fmap_2.
      * now rewrite better_name.
  - (* no entry of that name: the threshold decides *)
    pose proof (proj1 (existsb_same_name_false cav found) E) as Hfresh.
    destruct (Qltb (matching_error cav) threshold) eqn:L.
    + apply Qltb_lt in L. split.
      * rewrite fmap_app. apply NoDup_app. repeat split.
        -- assumption.
        -- intros n Hn Hc. apply list_elem_of_singleton in Hc as ->.
           apply list_elem_of_fmap in Hn as (e & Hn & He).
           now apply (Hfresh e He).
        -- apply NoDup_singleton.
      * intros e He. apply elem_of_app in He as [He | He].
        -- destruct (Ho e He). split; [|assumption].
           apply elem_of_app. now left.
        -- apply list_elem_of_singleton in He as ->. split; [|exact L].
           apply elem_of_app. right. now apply list_elem_of_singleton.
      * intros e x He Hx Hn Hadm.
        apply elem_of_app in He as [He | He];
          apply elem_of_app in Hx as [Hx | Hx].
        -- now apply Hm.
        -- apply list_elem_of_singleton in Hx as ->.
           symmetry in Hn. now destruct (Hfresh e He).
        -- apply list_elem_of_singleton in He as ->.
           destruct (Hp x Hx Hadm) as (e & He & Hn').
           destruct (Hfresh e He). congruence.
        -- apply list_elem_of_singleton in He as ->.
           apply list_elem_of_singleton in Hx as ->. apply Qle_refl.
      * intros x Hx Hadm. apply elem_of_app in Hx as [Hx | Hx].
        -- destruct (Hp x Hx Hadm) as (e & He & Hn). exists e. split.
           ++ apply elem_of_app. now left.
           ++ assumption.
        -- apply list_elem_of_singleton in Hx as ->. exists cav. split.
           ++ apply elem_of_app. right. now apply list_elem_of_singleton.
           ++ reflexivity.
    + apply Qltb_not_lt in L. split.
      * assumption.
      * intros e He. destruct (Ho e He). split; [|assumption].
        apply elem_of_app. now left.
      * intros e x He Hx Hn Hadm. apply elem_of_app in Hx as [Hx | Hx].
        -- now apply Hm.
        -- apply list_elem_of_singleton in Hx as ->. contradiction.
      * intros x Hx Hadm. apply elem_of_app in Hx as [Hx | Hx].
        -- now apply Hp.
        -- apply list_elem_of_singleton in Hx as ->. contradiction.
Qed.

Lemma merge_cons (found : list Cavity) (cav : Cavity) (l : list Cavity) :
  merge threshold found (cav :: l)
  = merge threshold (merge_one threshold found cav) l.
Proof. reflexivity. Qed.

Lemma merge_app (found l1 l2 : list Cavity) :
  merge threshold found (l1 ++ l2)
  = merge threshold (merge threshold found l1) l2.
Proof. unfold merge. apply foldl_app. Qed.

Lemma merge_inv (incoming observed found : list Cavity) :
  ResultSetInv threshold observed found ->
  ResultSetInv threshold (observed ++ incoming)
               (merge threshold found incoming).
Proof.
  revert observed found.
  induction incoming as [|cav incoming IH]; intros observed found Hinv.
  - now rewrite app_nil_r.
  - rewrite merge_cons.
    replace (observed ++ cav :: incoming)
      with ((observed ++ [cav]) ++ incoming)
      by now rewrite <- app_assoc.
    apply IH. now apply merge_one_inv.
Qed.

(** Every result set built from the empty one satisfies the invariant. *)
Lemma inv_reachable (batches : list (list Cavity)) :
  ResultSetInv threshold (concat batches)
               (merge_batches threshold [] batches).
Proof.
  assert (H : forall observed found,
             ResultSetInv threshold observed found ->
             ResultSetInv threshold (observed ++ concat batches)
                          (merge_batches threshold found batches)).
  { induction batches as [|b batches' IH]; intros observed found Hinv.
    - simpl. now rewrite app_nil_r.
    - simpl concat. rewrite app_assoc. apply IH. now apply merge_inv. }
  exact (H [] [] inv_empty).
Qed.

Lemma merge_one_unique (found : list Cavity) (cav : Cavity) :
  NoDup (object_name <$> found) ->
  NoDup (object_name <$> merge_one threshold found cav).
Proof.
  intros Hu. rewrite merge_one_spec.
  destruct (existsb (same_name cav) found) eqn:E.
  - now rewrite better_names.
  - destruct (Qltb (matching_error cav) threshold); [|assumption].
    rewrite fmap_app. apply NoDup_app. repeat split.
    + assumption.
    + intros n Hn Hc. apply list_elem_of_singleton in Hc as ->.
      apply list_elem_of_fmap in Hn as (e & Hn & He).
      now apply (proj1 (existsb_same_name_false cav found) E e He).
    + apply NoDup_singleton.
Qed.

Lemma merge_unique (incoming found : list Cavity) :
  NoDup (object_name <$> found) ->
  NoDup (object_name <$> merge threshold found incoming).
Proof.
  revert found. induction incoming as [|cav incoming IH]; intros found Hu.
  - assumption.
  - rewrite merge_cons. apply IH. now apply merge_one_unique.
Qed.

End FusionInvariant.

(** ** Arrival order *)

Section FusionOrder.
Import find_cavities fusion.

Variable threshold : Q.

Lemma elem_of_merge_one (found : list Cavity) (cav y : Cavity) :
  y ∈ merge_one threshold found cav ->
  (exists e, e ∈ found /\ y = better cav e) \/
  (y = cav /\ existsb (same_name cav) found = false).
Proof.
  rewrite merge_one_spec.
  destruct (existsb (same_name cav) found) eqn:E.
  - intros Hy. apply list_elem_of_fmap in Hy as (e & -> & He). left. eauto.
  - assert (Hid : forall e, e ∈ found ->
              exists e', e' ∈ found /\ e = better cav e').
    { intros e He. exists e. split; [assumption|].
      unfold better. replace (same_name cav e) with false; [reflexivity|].
      symmetry. apply same_name_neq. intros Hn.
      now apply (proj1 (existsb_same_name_false cav found) E e He). }
    destruct (Qltb (matching_error cav) threshold).
    + intros Hy. apply elem_of_app in Hy as [Hy | Hy].
      * left. now apply Hid.
      * apply list_elem_of_singleton in Hy as ->. now right.
    + intros Hy. left. now apply Hid.
Qed.

Lemma name_kept (found : list Cavity) (cav : Cavity) (n : string) :
  (exists e, e ∈ found /\ object_name e = n) ->
  exists e, e ∈ merge_one threshold found cav /\ object_name e = n.
Proof.
  intros (e & He & Hn). rewrite merge_one_spec.
  destruct (existsb (same_name cav) found).
  - exists (better cav e). split.
    + now apply list_elem_of_fmap_2.
    + now rewrite better_name.
  - exists e. split; [|assumption].
    destruct (Qltb (matching_error cav) threshold); [|assumption].
    apply elem_of_app. now left.
Qed.

Lemma names_kept (incoming found : list Cavity) (n : string) :
  (exists e, e ∈ found /\ object_name e = n) ->
  exists e, e ∈ merge threshold found incoming /\ object_name e = n.
Proof.
  revert found. induction incoming as [|c incoming IH]; intros found H.
  - exact H.
  - rewrite merge_cons. apply IH. now apply name_kept.
Qed.

(** Before [x] arrives: worse candidates leave only worse entries. *)
Lemma beats_step (x c : Cavity) (found : list Cavity) :
  beats x found ->
  (object_name c = object_name x ->
   (matching_error x < matching_error c)%Q) ->
  beats x (merge_one threshold found c).
Proof.
  intros Hb Hc y Hy Hn.
  apply elem_of_merge_one in Hy as [(e & He & ->) | (-> & _)].
  - rewrite better_name in Hn.
    destruct (better_cases c e) as [(-> & Hce & _) | (-> & _)].
    + apply Hc. congruence.
    + now apply Hb.
  - now apply Hc.
Qed.

Lemma beats_merge (x : Cavity) (incoming found : list Cavity) :
  beats x found ->
  (forall c, c ∈ incoming -> object_name c = object_name x ->
             (matching_error x < matching_error c)%Q) ->
  beats x (merge threshold found incoming).
Proof.
  revert found. induction incoming as [|c incoming IH]; intros found Hb Hc.
  - exact Hb.
  - rewrite merge_cons. apply IH.
    + apply beats_step; [assumption|]. apply Hc. now left.
    + intros c' Hc'. apply Hc. now right.
Qed.

(** When [x] arrives it takes the place of every entry of its name, or is
    appended if there is none and it is below the threshold. *)
Lemma holds_arrival (x : Cavity) (found : list Cavity) :
  beats x found ->
  admissible threshold x \/
  (exists e, e ∈ found /\ object_name e = object_name x) ->
  holds x (merge_one threshold found x).
Proof.
  intros Hb Hadm. split.
  - destruct (existsb (same_name x) found) eqn:E.
    + apply name_kept. now apply existsb_same_name.
    + destruct Hadm as [Hadm | Hex].
      * exists x. split; [|reflexivity].
        rewrite merge_one_spec, E.
        replace (Qltb (matching_error x) threshold) with true
          by (symmetry; now apply Qltb_lt).
        apply elem_of_app. right. now apply list_elem_of_singleton.
      * apply existsb_same_name in Hex. congruence.
  - intros y Hy Hn.
    apply elem_of_merge_one in Hy as [(e & He & ->) | (-> & _)];
      [|reflexivity].
    rewrite better_name in Hn.
    destruct (better_cases x e) as [(-> & _) | (Heq & Hge)];
      [reflexivity|].
    exfalso. pose proof (Hb e He Hn) as Hlt.
    symmetry in Hn. exact (Qlt_not_le _ _ Hlt (Hge Hn)).
Qed.

(** After [x] is in: candidates that are not strictly better leave it. *)
Lemma holds_step (x c : Cavity) (found : list Cavity) :
  holds x found ->
  (object_name c = object_name x ->
   (matching_error x <= matching_error c)%Q) ->
  holds x (merge_one threshold found c).
Proof.
  intros [Hex Hall] Hc. split.
  - now apply name_kept.
  - intros y Hy Hn.
    apply elem_of_merge_one in Hy as [(e & He & ->) | (-> & Habs)].
    + rewrite better_name in Hn.
      pose proof (Hall e He Hn) as ->.
      destruct (better_cases c x) as [(_ & Hcx & Hlt) | (-> & _)];
        [|reflexivity].
      exfalso. exact (Qlt_not_le _ _ Hlt (Hc Hcx)).
    + exfalso. destruct Hex as (e & He & Hne).
      apply (proj1 (existsb_same_name_false c found) Habs e He).
      congruence.
Qed.

Lemma holds_merge (x : Cavity) (incoming found : list Cavity) :
  holds x found ->
  (forall c, c ∈ incoming -> object_name c = object_name x ->
             (matching_error x <= matching_error c)%Q) ->
  holds x (merge threshold found incoming).
Proof.
  revert found. induction incoming as [|c incoming IH]; intros found Hh Hc.
  - exact Hh.
  - rewrite merge_cons. apply IH.
    + apply holds_step; [assumption|]. apply Hc. now left.
    + intros c' Hc'. apply Hc. now right.
Qed.

Lemma merge_batches_concat (batches : list (list Cavity))
      (found : list Cavity) :
  merge_batches threshold found batches
  = merge threshold found (concat batches).
Proof.
  unfold merge_batches. revert found.
  induction batches as [|b batches IH]; intros found; simpl.
  - reflexivity.
  - now rewrite IH, merge_app.
Qed.

End FusionOrder.

(** ** Claims about the fusion loop *)

Section FusionClaims.
Import find_cavities fusion.

(** C1 (replace if better).  When an incoming cavity [cav] meets an entry
    [e] of the same object name at position [idx] of the result set, the
    set keeps its length; if [cav] has the strictly lower matching error
    it takes position [idx], otherwise [e] stays at [idx], and in a set
    that is unique by name nothing changes at all ([cav] is dropped). *)
Theorem C1_replace_if_better
        (threshold : Q) (found : list Cavity) (cav e : Cavity) (idx : nat) :
  found !! idx = Some e ->
  object_name cav = object_name e ->
  length (merge_one threshold found cav) = length found /\
  ((matching_error cav < matching_error e)%Q ->
   merge_one threshold found cav !! idx = Some cav) /\
  (~ (matching_error cav < matching_error e)%Q ->
   merge_one threshold found cav !! idx = Some e /\
   (NoDup (object_name <$> found) ->
    merge_one threshold found cav = found)).
Proof.
  intros Hidx Hn.
  assert (He : e ∈ found) by (apply list_elem_of_lookup; eauto).
  assert (Hex : existsb (same_name cav) found = true)
    by (apply existsb_same_name; eauto).
  split; [|split].
  - eapply merge_one_length_present; eassumption.
  - intros Hlt. rewrite (merge_one_lookup_present _ _ _ _ _ Hex Hidx).
    f_equal. unfold better.
    replace (same_name cav e) with true
      by (symmetry; now apply same_name_eq).
    replace (Qltb (matching_error cav) (matching_error e)) with true
      by (symmetry; now apply Qltb_lt).
    reflexivity.
  - intros Hge. split.
    + rewrite (merge_one_lookup_present _ _ _ _ _ Hex Hidx).
      f_equal. unfold better.
      replace (Qltb (matching_error cav) (matching_error e)) with false
        by (symmetry; now apply Qltb_not_lt).
      now rewrite andb_false_r.
    + intros Hu. rewrite merge_one_spec, Hex.
      eapply unique_name_unchanged; eassumption.
Qed.

Lemma C1_replace_if_better_witness :
  [A (8#100)] !! 0%nat = Some (A (8#100)) /\
  object_name (A (3#100)) = object_name (A (8#100)) /\
  length (merge_one (1#10) [A (8#100)] (A (3#100))) = 1%nat /\
  merge_one (1#10) [A (8#100)] (A (3#100)) !! 0%nat = Some (A (3#100)).
Proof.
  destruct (C1_replace_if_better (1#10) [A (8#100)] (A (3#100)) (A (8#100))
                                 0 eq_refl eq_refl) as (Hlen & Hlt & _).
  split; [reflexivity|]. split; [reflexivity|]. split.
  - exact Hlen.
  - apply Hlt. reflexivity.
Defined.

(** The three scenarios of the fusion engine, on the whole loop. *)
Example scenario_replaced :
  merge (1#10) [A (8#100)] [A (3#100)] = [A (3#100)].
Proof. reflexivity. Qed.

Example scenario_kept :
  merge (1#10) [A (3#100)] [A (8#100)] = [A (3#100)].
Proof. reflexivity. Qed.

Example scenario_rejected :
  merge (1#10) [] [A (2#10)] = [].
Proof. reflexivity. Qed.

(** C2 (threshold acceptance).  When no entry of the result set has the
    object name of the incoming cavity, the cavity is appended exactly
    when its matching error is strictly below the threshold; otherwise
    the result set is left as it is. *)
Theorem C2_threshold_acceptance
        (threshold : Q) (found : list Cavity) (cav : Cavity) :
  (forall e, e ∈ found -> object_name e <> object_name cav) ->
  (merge_one threshold found cav = found ++ [cav]
   <-> (matching_error cav < threshold)%Q) /\
  (merge_one threshold found cav = found
   <-> ~ (matching_error cav < threshold)%Q).
Proof.
  intros Hfresh. apply existsb_same_name_false in Hfresh.
  rewrite merge_one_spec, Hfresh.
  assert (Hne : found ++ [cav] <> found).
  { intros Heq. apply (f_equal length) in Heq.
    rewrite length_app in Heq. simpl in Heq. lia. }
  destruct (Qltb (matching_error cav) threshold) eqn:L.
  - apply Qltb_lt in L. split; split; intros H.
    + exact L.
    + reflexivity.
    + contradiction.
    + contradiction.
  - apply Qltb_not_lt in L. split; split; intros H.
    + symmetry in H. contradiction.
    + contradiction.
    + exact L.
    + reflexivity.
Qed.

Lemma C2_threshold_acceptance_witness :
  (forall e, e ∈ [A (3#100)] -> object_name e <> object_name (B (5#100))) /\
  merge_one (1#10) [A (3#100)] (B (5#100)) = [A (3#100); B (5#100)].
Proof.
  assert (Hfresh : forall e, e ∈ [A (3#100)] ->
                             object_name e <> object_name (B (5#100))).
  { intros e He. apply list_elem_of_singleton in He. subst e. discriminate. }
  split; [exact Hfresh|].
  destruct (C2_threshold_acceptance (1#10) [A (3#100)] (B (5#100)) Hfresh)
    as [[_ Happ] _].
  apply Happ. reflexivity.
Defined.

(** C3 (invariant of the result set).  If the result set is unique by
    object name and holds, for every name with an admissible observation
    so far, an observed candidate of minimal admissible matching error,
    then after merging any batch the same is true of the merged set with
    respect to all observations, old and new. *)
Theorem C3_invariant_preserved
        (threshold : Q) (observed found incoming : list Cavity) :
  ResultSetInv threshold observed found ->
  NoDup (object_name <$> merge threshold found incoming) /\
  (forall e, e ∈ merge threshold found incoming ->
     e ∈ observed ++ incoming /\
     admissible threshold e /\
     forall x, x ∈ observed ++ incoming ->
               object_name x = object_name e ->
               admissible threshold x ->
               (matching_error e <= matching_error x)%Q) /\
  (forall x, x ∈ observed ++ incoming -> admissible threshold x ->
     exists e, e ∈ merge threshold found incoming /\
               object_name e = object_name x).
Proof.
  intros Hinv.
  destruct (merge_inv threshold incoming observed found Hinv)
    as [Hu Ho Hm Hp].
  split; [exact Hu|]. split; [|exact Hp].
  intros e He. destruct (Ho e He) as [Hobs Hadm].
  repeat split; try assumption.
  intros x Hx Hn Hx'. now apply (Hm e x).
Qed.

Lemma C3_invariant_preserved_witness :
  ResultSetInv (1#10) [A (8#100)] [A (8#100)] /\
  NoDup (object_name <$>
           merge (1#10) [A (8#100)] [A (3#100); B (2#10); A (5#100)]).
Proof.
  assert (Hinv : ResultSetInv (1#10) [A (8#100)] [A (8#100)]).
  { split.
    - apply NoDup_singleton.
    - intros e He. apply list_elem_of_singleton in He. subst e.
      split; [now apply list_elem_of_singleton | reflexivity].
    - intros e x He Hx _ _.
      apply list_elem_of_singleton in He. subst e.
      apply list_elem_of_singleton in Hx. subst x. apply Qle_refl.
    - intros x Hx _. apply list_elem_of_singleton in Hx. subst x.
      exists (A (8#100)). split; [now apply list_elem_of_singleton|].
      reflexivity. }
  split; [exact Hinv|].
  exact (proj1 (C3_invariant_preserved
                  (1#10) [A (8#100)] [A (8#100)]
                  [A (3#100); B (2#10); A (5#100)] Hinv)).
Defined.

(** C4, as stated, fails: of two cavities of one name, neither below the
    threshold, the one with the lower matching error does not end up in
    an empty result set, in whichever order the two arrive, in one batch
    or in two.  Nor does the better of two cavities stay when a third one
    of its name is better still. *)
Lemma C4_counterexample :
  (matching_error (A (15#100)) < matching_error (A (2#10)))%Q /\
  (A (15#100) ∉ merge matching_threshold [] [A (2#10); A (15#100)]) /\
  (A (15#100) ∉ merge matching_threshold [] [A (15#100); A (2#10)]) /\
  (A (15#100) ∉ merge_batches matching_threshold [] [[A (2#10)]; [A (15#100)]]) /\
  (matching_error (A (3#100)) < matching_error (A (5#100)))%Q /\
  (A (3#100) ∉ merge matching_threshold [] [A (5#100); A (3#100); A (1#100)]).
Proof.
  split; [reflexivity|].
  split; [intros H; vm_compute in H; now apply elem_of_nil in H|].
  split; [intros H; vm_compute in H; now apply elem_of_nil in H|].
  split; [intros H; vm_compute in H; now apply elem_of_nil in H|].
  split; [reflexivity|].
  intros H. change (A (3#100) ∈ [A (1#100)]) in H.
  apply list_elem_of_singleton in H. discriminate H.
Qed.

(** C4 (arrival order), amended.  Let the cavities arrive in any number of
    batches.  First, let [x] be an arrival whose matching error is below
    the threshold, or whose name already has an entry in the result set.
    If [x] is strictly better than every entry and every earlier arrival
    of its name, and no later arrival of its name is strictly better (a
    tie included), then after all batches are merged [x] is in the result
    set and is the only entry of its name.  Second, an entry [x] that is
    the only one of its name stays so as long as no arrival of its name
    is strictly better (a tie included). *)
Theorem C4_lower_score_wins
        (threshold : Q) (found : list Cavity) (batches : list (list Cavity))
        (x : Cavity) :
  (forall before after,
      concat batches = before ++ x :: after ->
      admissible threshold x \/
      (exists e, e ∈ found /\ object_name e = object_name x) ->
      (forall e, e ∈ found -> object_name e = object_name x ->
                 (matching_error x < matching_error e)%Q) ->
      (forall c, c ∈ before -> object_name c = object_name x ->
                 (matching_error x < matching_error c)%Q) ->
      (forall c, c ∈ after -> object_name c = object_name x ->
                 (matching_error x <= matching_error c)%Q) ->
      x ∈ merge_batches threshold found batches /\
      forall y, y ∈ merge_batches threshold found batches ->
                object_name y = object_name x -> y = x) /\
  (x ∈ found ->
   (forall y, y ∈ found -> object_name y = object_name x -> y = x) ->
   (forall c, c ∈ concat batches -> object_name c = object_name x ->
              (matching_error x <= matching_error c)%Q) ->
   x ∈ merge_batches threshold found batches /\
   forall y, y ∈ merge_batches threshold found batches ->
             object_name y = object_name x -> y = x).
Proof.
  assert (Hout : forall R, holds x R ->
             x ∈ R /\ forall y, y ∈ R -> object_name y = object_name x -> y = x).
  { intros R [(e & He & Hn) Hall]. split; [|exact Hall].
    pose proof (Hall e He Hn) as Heq. subst e. exact He. }
  split.
  - intros before after Hsplit Hadm Hfound Hbefore Hafter.
    apply Hout.
    rewrite merge_batches_concat, Hsplit, merge_app, merge_cons.
    apply holds_merge; [|assumption].
    apply holds_arrival.
    + now apply beats_merge.
    + destruct Hadm as [Hadm | Hex]; [now left | right].
      now apply names_kept.
  - intros Hin Hall Hlater. apply Hout.
    rewrite merge_batches_concat. apply holds_merge; [|assumption].
    split; [|exact Hall]. exists x. now split.
Qed.

Lemma C4_lower_score_wins_witness :
  (A (3#100) ∈ merge_batches (1#10) [] [[A (8#100)]; [A (3#100); A (3#100)]]) /\
  (A (3#100) ∈ merge_batches (1#10) [A (3#100)] [[A (8#100)]; [A (3#100)]]).
Proof.
  pose proof (C4_lower_score_wins
                (1#10) [] [[A (8#100)]; [A (3#100); A (3#100)]] (A (3#100)))
    as [Harrive _].
  pose proof (C4_lower_score_wins
                (1#10) [A (3#100)] [[A (8#100)]; [A (3#100)]] (A (3#100)))
    as [_ Hstay].
  split.
  - refine (proj1 (Harrive [A (8#100)] [A (3#100)] eq_refl _ _ _ _)).
    + left. reflexivity.
    + intros e He. now apply elem_of_nil in He.
    + intros c Hc _. apply list_elem_of_singleton in Hc. subst c. reflexivity.
    + intros c Hc _. apply list_elem_of_singleton in Hc. subst c.
      apply Qle_refl.
  - refine (proj1 (Hstay _ _ _)).
    + now apply list_elem_of_singleton.
    + intros y Hy _. now apply list_elem_of_singleton in Hy.
    + intros c Hc _. simpl in Hc.
      apply elem_of_cons in Hc as [-> | Hc]; [discriminate|].
      apply list_elem_of_singleton in Hc. subst c. apply Qle_refl.
Defined.

End FusionClaims.

(** ** find_cavities: the acquisition loop *)

Section CavityCycles.
Import find_cavities.

Lemma foldl_cavity_cb_frame (l : list Cavity) (c : option Cavity)
      (f : option string) :
  foldl cavity_cb (mkSelf c f) l
  = mkSelf (cavity (foldl cavity_cb (mkSelf c None) l)) f.
Proof.
  revert c. induction l as [|x l IH]; intros c; simpl.
  - reflexivity.
  - unfold cavity_cb at 2 4. simpl. apply IH.
Qed.

(** The frame id of the step plays no part in the waiting loop. *)
Lemma wait_frame (start : Z) (script : list Tick) (c : option Cavity)
      (f : option string) :
  wait start script (mkSelf c f)
  = (mkSelf (cavity (fst (wait start script (mkSelf c None)))) f,
     snd (wait start script (mkSelf c None))).
Proof.
  revert c. induction script as [|t script IH]; intros c; simpl.
  - reflexivity.
  - rewrite (foldl_cavity_cb_frame (arrivals t) c f).
    destruct (foldl cavity_cb (mkSelf c None) (arrivals t)) as [c' f'] eqn:E.
    pose proof (foldl_cavity_cb_frame (arrivals t) c None) as Hf.
    rewrite E in Hf. injection Hf as Hf. subst f'. simpl.
    destruct (is_shutdown t); [reflexivity|].
    destruct c' as [c'|]; [reflexivity|].
    destruct (now t - start >? timeout)%Z; [reflexivity|].
    apply IH.
Qed.

Lemma wait_after_reset (obj : Object) (e : CycleEnv) (st : State) :
  snd (wait (start_time e) (ticks e) (self (reset_and_trigger obj st)))
  = cycle_end e.
Proof.
  unfold reset_and_trigger, cycle_end. simpl. now rewrite wait_frame.
Qed.

Lemma foldl_cavity_cb_last (l : list Cavity) (s : Self) (c : Cavity) :
  cavity (foldl cavity_cb s l) = Some c -> cavity s = Some c \/ c ∈ l.
Proof.
  revert s. induction l as [|x l IH]; intros s; simpl.
  - now left.
  - intros H. apply IH in H as [H | H].
    + right. simpl in H. injection H as ->. now left.
    + right. now right.
Qed.

(** A cavity that ends a cycle was delivered during that cycle. *)
Lemma wait_received (start : Z) (script : list Tick) (s s' : Self)
      (c : Cavity) :
  cavity s = None ->
  wait start script s = (s', Received c) ->
  c ∈ concat (arrivals <$> script).
Proof.
  revert s. induction script as [|t script IH]; intros s Hs; simpl.
  - discriminate.
  - destruct (is_shutdown t); [discriminate|].
    destruct (cavity (foldl cavity_cb s (arrivals t))) as [c'|] eqn:E.
    + intros H. injection H as _ ->.
      apply foldl_cavity_cb_last in E as [E | E]; [congruence|].
      apply elem_of_app. now left.
    + destruct (now t - start >? timeout)%Z; [discriminate|].
      intros H. apply elem_of_app. right. exact (IH _ E H).
Qed.

(** A script whose clock passes the deadline makes the loop leave. *)
Lemma cavity_wait_ends (start : Z) (script : list Tick) (s : Self) :
  (exists t, t ∈ script /\ (now t - start > timeout)%Z) ->
  snd (wait start script s) <> StillWaiting.
Proof.
  revert s. induction script as [|t script IH]; intros s (t' & Hin & Hlate).
  - now apply elem_of_nil in Hin.
  - simpl. destruct (is_shutdown t); [discriminate|].
    destruct (cavity (foldl cavity_cb s (arrivals t))); [discriminate|].
    destruct (now t - start >? timeout)%Z eqn:Hcmp; [discriminate|].
    apply IH. apply elem_of_cons in Hin as [-> | Hin].
    + rewrite Z.gtb_ltb in Hcmp. apply Z.ltb_ge in Hcmp. lia.
    + eauto.
Qed.

Lemma acquire_found (env : Env) (objs : list Object) (i : nat)
      (local : list Cavity) (st : State) :
  found_cavities (fst (acquire env i objs local st)) = found_cavities st.
Proof.
  revert i local st. induction objs as [|obj objs IH]; intros i local st.
  - reflexivity.
  - simpl.
    destruct (wait (start_time (cycles env i)) (ticks (cycles env i))
                   (mkSelf None (frame_id (self st)))) as [s' [c| | |]];
      try reflexivity; now rewrite IH.
Qed.

Lemma acquire_trace (env : Env) (objs : list Object) (i : nat)
      (local : list Cavity) (st : State) :
  exists k, (k <= length objs)%nat /\
    trace (fst (acquire env i objs local st))
    = trace st ++ concat (cycle_actions <$> take k objs).
Proof.
  revert i local st. induction objs as [|obj objs IH]; intros i local st.
  - exists 0%nat. simpl. split; [lia|]. now rewrite app_nil_r.
  - simpl.
    destruct (wait (start_time (cycles env i)) (ticks (cycles env i))
                   (mkSelf None (frame_id (self st)))) as [s' [c| | |]].
    + edestruct IH as (k & Hk & ->). exists (S k). split; [lia|].
      simpl. now rewrite <- app_assoc.
    + edestruct IH as (k & Hk & ->). exists (S k). split; [lia|].
      simpl. now rewrite <- app_assoc.
    + exists 1%nat. split; [simpl; lia|]. destruct objs; reflexivity.
    + exists 1%nat. split; [simpl; lia|]. destruct objs; reflexivity.
Qed.

(** The first cycle that times out ends the acquisition on the spot. *)
Lemma acquire_timeout (env : Env) (objs : list Object) (k i : nat)
      (local : list Cavity) (st : State) :
  (k < length objs)%nat ->
  (forall j, (j < k)%nat -> passes (cycles env (i + j))) ->
  cycle_end (cycles env (i + k)) = TimedOut ->
  snd (acquire env i objs local st) = AcqTimeout /\
  trace (fst (acquire env i objs local st))
  = trace st ++ concat (cycle_actions <$> take (S k) objs).
Proof.
  revert k i local st.
  induction objs as [|obj objs IH]; intros k i local st Hk Hpass Hend.
  - simpl in Hk. lia.
  - simpl acquire.
    pose proof (wait_after_reset obj (cycles env i) st) as Hw.
    unfold reset_and_trigger in Hw. simpl in Hw.
    destruct (wait (start_time (cycles env i)) (ticks (cycles env i))
                   (mkSelf None (frame_id (self st)))) as [s' w].
    simpl in Hw. subst w.
    destruct k as [|k].
    + rewrite Nat.add_0_r in Hend. rewrite Hend. simpl.
      split; [reflexivity|]. destruct objs; reflexivity.
    + assert (Hnext :
                forall j, (j < k)%nat -> passes (cycles env (S i + j))).
      { intros j Hj. replace (S i + j)%nat with (i + S j)%nat by lia.
        apply Hpass. lia. }
      assert (Hend' : cycle_end (cycles env (S i + k)) = TimedOut).
      { replace (S i + k)%nat with (i + S k)%nat by lia. exact Hend. }
      simpl in Hk. assert (Hk' : (k < length objs)%nat) by lia.
      pose proof (Hpass 0%nat ltac:(lia)) as Hp0.
      rewrite Nat.add_0_r in Hp0.
      destruct Hp0 as [(c & Hc) | Hc]; rewrite Hc.
      * edestruct (IH k (S i)) as [Ho Ht]; [exact Hk'|exact Hnext|exact Hend'|].
        rewrite Ho, Ht. split; [reflexivity|].
        simpl. now rewrite <- app_assoc.
      * edestruct (IH k (S i)) as [Ho Ht]; [exact Hk'|exact Hnext|exact Hend'|].
        rewrite Ho, Ht. split; [reflexivity|].
        simpl. now rewrite <- app_assoc.
Qed.

Lemma acquire_frame (env : Env) (objs : list Object) (i : nat)
      (local : list Cavity) (st : State) :
  frame_id (self (fst (acquire env i objs local st))) = frame_id (self st).
Proof.
  revert i local st. induction objs as [|obj objs IH]; intros i local st.
  - reflexivity.
  - simpl acquire. rewrite wait_frame.
    destruct (snd (wait (start_time (cycles env i)) (ticks (cycles env i))
                        (mkSelf None None))) as [c| | |];
      try reflexivity; now rewrite IH.
Qed.

(** When every cycle leaves its loop without a timeout, the acquisition
    loop ends with the cavities of the cycles that received one. *)
Lemma acquire_collected (env : Env) (objs : list Object) (i : nat)
      (local : list Cavity) (st : State) :
  (forall j, (j < length objs)%nat -> passes (cycles env (i + j))) ->
  snd (acquire env i objs local st) = Collected (local ++ collected env i objs).
Proof.
  revert i local st. induction objs as [|obj objs IH]; intros i local st Hpass.
  - simpl. now rewrite app_nil_r.
  - simpl acquire. rewrite wait_frame. fold (cycle_end (cycles env i)).
    assert (Hnext : forall j, (j < length objs)%nat ->
                              passes (cycles env (S i + j))).
    { intros j Hj. replace (S i + j)%nat with (i + S j)%nat by lia.
      apply Hpass. simpl. lia. }
    pose proof (Hpass 0%nat ltac:(simpl; lia)) as Hp0.
    rewrite Nat.add_0_r in Hp0.
    simpl collected.
    destruct Hp0 as [(c & Hc) | Hc]; rewrite Hc.
    + rewrite IH by exact Hnext. now rewrite <- app_assoc.
    + now rewrite IH by exact Hnext.
Qed.

Lemma cycles_reset_before_trigger (objs : list Object)
      (cleared : list string) :
  reset_before_trigger EVENT_IN_TOPIC latch_fields cleared
                       (concat (cycle_actions <$> objs)) = true.
Proof.
  revert cleared. induction objs as [|obj objs IH]; intros cleared.
  - reflexivity.
  - rewrite fmap_cons. simpl concat. unfold cycle_actions at 1.
    cbn [app reset_before_trigger].
    change (is_trigger EVENT_IN_TOPIC
                       (Publish OBJECT_NAME_TOPIC (name obj))) with false.
    change (is_trigger EVENT_IN_TOPIC
                       (Publish EVENT_IN_TOPIC "e_trigger")) with true.
    cbv iota. rewrite IH. reflexivity.
Qed.

Lemma classify_cases (found : list Cavity) (selected_objects : list Object) :
  (classify found selected_objects = "succeeded" /\
   length found = length selected_objects) \/
  (classify found selected_objects = "not_all_cavities_found" /\
   length found <> length selected_objects).
Proof.
  unfold classify.
  destruct (Nat.eqb (length found) (length selected_objects)) eqn:E.
  - left. split; [reflexivity|]. now apply Nat.eqb_eq.
  - right. split; [reflexivity|]. now apply Nat.eqb_neq.
Qed.

Lemma unique_identities_length (found : list Cavity) :
  NoDup (object_name <$> found) ->
  unique_identities found = length found.
Proof.
  intros Hu. unfold unique_identities.
  assert (H : forall l : list string, NoDup l -> remove_dups l = l).
  { induction 1 as [|x l Hx Hl IH]; simpl; [reflexivity|].
    destruct (decide_rel elem_of x l); [contradiction|]. now rewrite IH. }
  rewrite (H _ Hu). apply length_fmap.
Qed.

End CavityCycles.

(** ** find_objects: one attempt *)

Section ObjectAttempt.
Import find_objects.

Lemma foldl_deliver_retries (l : list Callback)
      (a : attr (option ObjectList)) (b : attr string) (r : Z) :
  foldl deliver (mkSelf a b r) l
  = mkSelf (object_list (foldl deliver (mkSelf a b 0) l))
           (event_msg (foldl deliver (mkSelf a b 0) l)) r.
Proof.
  revert a b. induction l as [|cb l IH]; intros a b; simpl.
  - reflexivity.
  - destruct cb; simpl; apply IH.
Qed.

(** The number of retries plays no part in the waiting loop. *)
Lemma wait_retries (start : Z) (script : list Tick)
      (a : attr (option ObjectList)) (b : attr string) (r : Z) :
  wait start script (mkSelf a b r)
  = (mkSelf (object_list (fst (wait start script (mkSelf a b 0))))
            (event_msg (fst (wait start script (mkSelf a b 0)))) r,
     snd (wait start script (mkSelf a b 0))).
Proof.
  revert a b. induction script as [|t script IH]; intros a b; simpl.
  - reflexivity.
  - rewrite (foldl_deliver_retries (arrivals t) a b r).
    destruct (foldl deliver (mkSelf a b 0) (arrivals t)) as [a' b' r'] eqn:E.
    simpl.
    change (poll (mkSelf a' b' r) start t) with (poll (mkSelf a' b' r') start t).
    destruct (poll (mkSelf a' b' r') start t) as [[w|]|]; try reflexivity.
    rewrite IH.
    pose proof (foldl_deliver_retries (arrivals t) a b 0) as Hf.
    rewrite E in Hf. assert (Hr : r' = 0%Z) by (injection Hf; auto).
    subst r'. reflexivity.
Qed.

Lemma deliver_armed (s : Self) (cb : Callback) :
  armed s -> armed (deliver s cb).
Proof.
  intros [[ol Hol] [m Hm]]. destruct cb; simpl; split; simpl; eauto.
Qed.

Lemma foldl_deliver_armed (l : list Callback) (s : Self) :
  armed s -> armed (foldl deliver s l).
Proof.
  revert s. induction l as [|cb l IH]; intros s Hs; simpl.
  - exact Hs.
  - apply IH. now apply deliver_armed.
Qed.

Lemma poll_armed (s : Self) (start : Z) (t : Tick) :
  armed s -> poll s start t <> AttributeError.
Proof.
  intros [[ol Hol] [m Hm]]. unfold poll. rewrite Hm, Hol. simpl.
  destruct (String.eqb m "e_done"); simpl.
  - destruct (is_not_none ol); simpl; [discriminate|].
    destruct (String.eqb m "e_failed"); [discriminate|].
    destruct (now t - start >? timeout)%Z; discriminate.
  - destruct (String.eqb m "e_failed"); [discriminate|].
    destruct (now t - start >? timeout)%Z; discriminate.
Qed.

Lemma wait_armed (start : Z) (script : list Tick) (s : Self) :
  armed s ->
  armed (fst (wait start script s)) /\ snd (wait start script s) <> Faulted.
Proof.
  revert s. induction script as [|t script IH]; intros s Hs; simpl.
  - split; [exact Hs | discriminate].
  - pose proof (foldl_deliver_armed (arrivals t) s Hs) as Hs'.
    pose proof (poll_armed _ start t Hs') as Hp.
    destruct (poll (foldl deliver s (arrivals t)) start t) as [[w|]|] eqn:E.
    + split; [exact Hs'|]. simpl. intros ->.
      revert E. destruct Hs' as [[ol Hol] [m Hm]].
      unfold poll. rewrite Hm, Hol. simpl.
      destruct (String.eqb m "e_done"); simpl.
      * destruct (is_not_none ol); simpl; [discriminate|].
        destruct (String.eqb m "e_failed"); [discriminate|].
        destruct (now t - start >? timeout)%Z; discriminate.
      * destruct (String.eqb m "e_failed"); [discriminate|].
        destruct (now t - start >? timeout)%Z; discriminate.
    + now apply IH.
    + contradiction.
Qed.

Lemma fresh_armed (r : Z) : armed (fresh r).
Proof. split; simpl; eauto. Qed.

Lemma ending_not_faulted (e : AttemptEnv) : ending e <> Faulted.
Proof. apply wait_armed, fresh_armed. Qed.

Lemma latched_has (e : AttemptEnv) :
  object_list (fst (wait (start_time e) (ticks e) (fresh 0)))
  = Has (latched e).
Proof.
  unfold latched.
  destruct (wait_armed (start_time e) (ticks e) (fresh 0) (fresh_armed 0))
    as [[[ol Hol] _] _].
  now rewrite Hol.
Qed.

(** One attempt, whatever the state it starts from. *)
Lemma attempt_spec (e : AttemptEnv) (st : State) :
  exists m,
    attempt e st
    = (mkState (mkSelf (Has (latched e)) m (retries (self st)))
               (found_objects st) (trace st ++ cycle_actions),
       ending e).
Proof.
  unfold attempt, reset_and_trigger. cbn [self found_objects trace
    object_list event_msg retries].
  rewrite wait_retries. fold (fresh 0). rewrite latched_has.
  eexists. reflexivity.
Qed.

Lemma no_objects_latched (ol : option ObjectList) (m : attr string) (r : Z) :
  no_objects (mkSelf (Has ol) m r)
  = Ok (match ol with
        | Some l => match objects l with [] => true | _ => false end
        | None => true
        end).
Proof.
  unfold no_objects. simpl. destruct ol as [l|]; [|reflexivity].
  destruct (objects l); reflexivity.
Qed.

Lemma no_objects_quiet (e : AttemptEnv) (m : attr string) (r : Z) :
  no_objects (mkSelf (Has (latched e)) m r)
  = Ok (match yield e with [] => true | _ => false end).
Proof.
  rewrite no_objects_latched. unfold yield.
  destruct (latched e) as [l|]; reflexivity.
Qed.

(** A script whose clock passes the deadline makes the loop leave. *)
Lemma object_wait_ends (start : Z) (script : list Tick) (s : Self) :
  (exists t, t ∈ script /\ (now t - start > timeout)%Z) ->
  snd (wait start script s) <> StillWaiting.
Proof.
  revert s. induction script as [|t script IH]; intros s (t' & Hin & Hlate).
  - now apply elem_of_nil in Hin.
  - simpl.
    destruct (poll (foldl deliver s (arrivals t)) start t) as [[w|]|] eqn:E.
    + simpl. intros ->. revert E. unfold poll.
      destruct (event_msg (foldl deliver s (arrivals t))) as [|m];
        simpl; [discriminate|].
      destruct (String.eqb m "e_done"); simpl.
      * destruct (object_list (foldl deliver s (arrivals t))) as [|ol];
          simpl; [discriminate|].
        destruct (is_not_none ol); simpl; [discriminate|].
        destruct (String.eqb m "e_failed"); [discriminate|].
        destruct (now t - start >? timeout)%Z; discriminate.
      * destruct (String.eqb m "e_failed"); [discriminate|].
        destruct (now t - start >? timeout)%Z; discriminate.
    + apply IH. apply elem_of_cons in Hin as [-> | Hin]; [|eauto].
      exfalso. revert E. unfold poll.
      destruct (event_msg (foldl deliver s (arrivals t))) as [|m];
        simpl; [discriminate|].
      assert (Hgt : (now t - start >? timeout)%Z = true).
      { rewrite Z.gtb_ltb. apply Z.ltb_lt. lia. }
      destruct (String.eqb m "e_done"); simpl.
      * destruct (object_list (foldl deliver s (arrivals t))) as [|ol];
          simpl; [discriminate|].
        destruct (is_not_none ol); simpl; [discriminate|].
        destruct (String.eqb m "e_failed"); [discriminate|].
        rewrite Hgt. discriminate.
      * destruct (String.eqb m "e_failed"); [discriminate|].
        rewrite Hgt. discriminate.
    + discriminate.
Qed.

(** What the latch holds was delivered since it was cleared. *)
Lemma foldl_deliver_list (l : list Callback) (s : Self) (x : ObjectList) :
  object_list (foldl deliver s l) = Has (Some x) ->
  object_list s = Has (Some x) \/ ObjectListMsg x ∈ l.
Proof.
  revert s. induction l as [|cb l IH]; intros s; simpl.
  - now left.
  - intros H. apply IH in H as [H | H]; [|right; now right].
    destruct cb; simpl in H.
    + injection H as ->. right. now left.
    + now left.
Qed.

Lemma foldl_deliver_event (l : list Callback) (s : Self) (m : string) :
  event_msg (foldl deliver s l) = Has m ->
  event_msg s = Has m \/ EventOutMsg m ∈ l.
Proof.
  revert s. induction l as [|cb l IH]; intros s; simpl.
  - now left.
  - intros H. apply IH in H as [H | H]; [|right; now right].
    destruct cb; simpl in H.
    + now left.
    + injection H as ->. right. now left.
Qed.

Lemma wait_list (start : Z) (script : list Tick) (s : Self) (x : ObjectList) :
  object_list (fst (wait start script s)) = Has (Some x) ->
  object_list s = Has (Some x) \/ ObjectListMsg x ∈ concat (arrivals <$> script).
Proof.
  revert s. induction script as [|t script IH]; intros s; simpl.
  - now left.
  - assert (Hhere : object_list (foldl deliver s (arrivals t)) = Has (Some x) ->
                    object_list s = Has (Some x) \/
                    ObjectListMsg x ∈ arrivals t ++ concat (arrivals <$> script)).
    { intros H. apply foldl_deliver_list in H as [H | H]; [now left|].
      right. apply elem_of_app. now left. }
    destruct (poll (foldl deliver s (arrivals t)) start t) as [[w|]|];
      simpl; try exact Hhere.
    intros H. apply IH in H as [H | H]; [now apply Hhere|].
    right. apply elem_of_app. now right.
Qed.

Lemma wait_event (start : Z) (script : list Tick) (s : Self) (m : string) :
  event_msg (fst (wait start script s)) = Has m ->
  event_msg s = Has m \/ EventOutMsg m ∈ concat (arrivals <$> script).
Proof.
  revert s. induction script as [|t script IH]; intros s; simpl.
  - now left.
  - assert (Hhere : event_msg (foldl deliver s (arrivals t)) = Has m ->
                    event_msg s = Has m \/
                    EventOutMsg m ∈ arrivals t ++ concat (arrivals <$> script)).
    { intros H. apply foldl_deliver_event in H as [H | H]; [now left|].
      right. apply elem_of_app. now left. }
    destruct (poll (foldl deliver s (arrivals t)) start t) as [[w|]|];
      simpl; try exact Hhere.
    intros H. apply IH in H as [H | H]; [now apply Hhere|].
    right. apply elem_of_app. now right.
Qed.

End ObjectAttempt.

(** ** find_objects: the retry loop *)

Section ObjectRetries.
Import find_objects.

Variable env : nat -> AttemptEnv.

Lemma foldl_deliver_keeps_retries (l : list Callback) (s : Self) :
  retries (foldl deliver s l) = retries s.
Proof.
  revert s. induction l as [|cb l IH]; intros s; simpl.
  - reflexivity.
  - rewrite IH. now destruct cb.
Qed.

(** A callback never takes a message out of the latch. *)
Lemma foldl_deliver_keeps_list (l : list Callback) (s : Self) (x : ObjectList) :
  object_list s = Has (Some x) ->
  exists x', object_list (foldl deliver s l) = Has (Some x').
Proof.
  revert s x. induction l as [|cb l IH]; intros s x H; simpl.
  - eauto.
  - destruct cb as [event|data]; simpl.
    + apply (IH _ event). reflexivity.
    + apply (IH _ x). exact H.
Qed.

Lemma no_objects_racing_nil (s : Self) :
  no_objects_racing [] [] s = (s, no_objects s).
Proof.
  unfold no_objects_racing, no_objects. simpl.
  destruct (object_list s) as [|[l|]]; reflexivity.
Qed.

(** On a latch whose attributes exist the test raises nothing, whatever the
    callbacks deliver meanwhile; when it finds objects, the latch holds a
    message with a non-empty list. *)
Lemma no_objects_racing_armed (b1 b2 : list Callback) (s : Self) :
  armed s ->
  armed (fst (no_objects_racing b1 b2 s)) /\
  retries (fst (no_objects_racing b1 b2 s)) = retries s /\
  (snd (no_objects_racing b1 b2 s) = Ok true \/
   (snd (no_objects_racing b1 b2 s) = Ok false /\
    exists l, object_list (fst (no_objects_racing b1 b2 s)) = Has (Some l) /\
              objects l <> [])).
Proof.
  intros Hs. unfold no_objects_racing.
  pose proof (foldl_deliver_armed b1 s Hs) as H1.
  pose proof (foldl_deliver_keeps_retries b1 s) as Hr1.
  destruct H1 as [[ol Hol] Hm]. rewrite Hol. simpl.
  destruct ol as [x|]; cbn [fst snd].
  - assert (Ha1 : armed (foldl deliver s b1)) by (split; eauto).
    pose proof (foldl_deliver_armed b2 _ Ha1) as H2.
    destruct (foldl_deliver_keeps_list b2 _ x Hol) as [x' Hx'].
    split; [exact H2|]. split.
    + now rewrite foldl_deliver_keeps_retries.
    + pose proof Hx' as Hread. rewrite Hx'. simpl.
      destruct (objects x') as [|o os] eqn:E.
      * now left.
      * right. split; [reflexivity|]. exists x'.
        split; [reflexivity|]. now rewrite E.
  - split; [split; eauto|]. split; [exact Hr1 | now left].
Qed.

Lemma attempts_shape (n i : nat) (st : State) (last : Late) :
  loop_shape env i n st (fst (fst (attempts env i n st last)))
             (snd (fst (attempts env i n st last))).
Proof.
  revert i st last. induction n as [|n IH]; intros i st last.
  - simpl. split; [reflexivity|]. split; [reflexivity|].
    exists 0%nat. split; [lia|]. split; [lia|].
    split; [now rewrite app_nil_r|]. split; [reflexivity | lia].
  - simpl attempts. destruct (attempt_spec (env i) st) as [ev Hat].
    rewrite Hat.
    set (st1 := mkState (mkSelf (Has (latched (env i))) ev (retries (self st)))
                        (found_objects st) (trace st ++ cycle_actions)).
    assert (Harm : armed (self st1)).
    { destruct (wait_armed (start_time (env i)) (ticks (env i))
                           (self (reset_and_trigger st))) as [Ha _].
      - split; simpl; eauto.
      - revert Ha. unfold attempt in Hat.
        destruct (wait (start_time (env i)) (ticks (env i))
                       (self (reset_and_trigger st))) as [s' w].
        injection Hat as -> _. trivial. }
    assert (Hstop : forall w, ending (env i) = w -> w <> StillWaiting ->
              w <> Faulted ->
              let r := no_objects_racing (before_check (late (env i)))
                                         (within_check (late (env i)))
                                         (self st1) in
              let st2 := mkState (fst r) (found_objects st1) (trace st1) in
              let out := match snd r with
                         | Ok true => attempts env (S i) n st2 (late (env i))
                         | Ok false => (st2, Broke, late (env i))
                         | AttributeError => (st2, LoopFaulted, late (env i))
                         end in
              loop_shape env i (S n) st (fst (fst out)) (snd (fst out))).
    { intros w Hw Hw1 Hw2 r st2 out.
      destruct (no_objects_racing_armed (before_check (late (env i)))
                  (within_check (late (env i))) (self st1) Harm)
        as (Ha2 & Hr2 & Hcase).
      fold r in Ha2, Hr2, Hcase.
      destruct Hcase as [Hq | (Hb & _)]; subst out; rewrite ?Hq, ?Hb.
      - destruct (IH (S i) st2 (late (env i))) as (Hf & Hr & k & Hk & Hpos & Htr & Hle).
        split; [exact Hf|]. split; [rewrite Hr; exact Hr2|].
        exists (S k). split; [lia|]. split; [lia|]. split.
        + rewrite Htr. simpl trace. rewrite <- app_assoc. reflexivity.
        + destruct (snd (fst (attempts env (S i) n st2 (late (env i))))).
          * destruct Hle as [Hz Hp]. split; [discriminate|]. intros _.
            destruct n as [|n']; [|apply Hp; lia].
            rewrite (Hz eq_refl). exact Ha2.
          * exact Hle.
          * destruct Hle as (j & Hj & Hend). exists (S j).
            split; [lia|]. replace (i + S j)%nat with (S i + j)%nat by lia.
            exact Hend.
          * exact Hle.
      - cbn [fst snd]. split; [reflexivity|]. split; [exact Hr2|].
        exists 1%nat. split; [lia|]. split; [lia|].
        split; [reflexivity | exact Ha2]. }
    destruct (ending (env i)) eqn:E.
    + specialize (Hstop Done eq_refl ltac:(discriminate) ltac:(discriminate)).
      cbv zeta in Hstop.
      destruct (no_objects_racing _ _ (self st1)) as [s [[|]|]]; exact Hstop.
    + specialize (Hstop Failed eq_refl ltac:(discriminate) ltac:(discriminate)).
      cbv zeta in Hstop.
      destruct (no_objects_racing _ _ (self st1)) as [s [[|]|]]; exact Hstop.
    + specialize (Hstop TimedOut eq_refl ltac:(discriminate) ltac:(discriminate)).
      cbv zeta in Hstop.
      destruct (no_objects_racing _ _ (self st1)) as [s [[|]|]]; exact Hstop.
    + cbn [fst snd]. split; [reflexivity|]. split; [reflexivity|].
      exists 1%nat. split; [lia|]. split; [lia|].
      split; [reflexivity|].
      exists 0%nat. rewrite Nat.add_0_r. split; [lia | exact E].
    + now destruct (ending_not_faulted (env i)).
Qed.

Lemma attempts_late_calm (n i : nat) (st : State) (last : Late) :
  last = no_late ->
  (forall j, (j < n)%nat -> calm (env (i + j)%nat)) ->
  snd (attempts env i n st last) = no_late.
Proof.
  revert i st last. induction n as [|n IH]; intros i st last Hlast Hcalm.
  - exact Hlast.
  - assert (Hc : late (env i) = no_late).
    { pose proof (Hcalm 0%nat ltac:(lia)) as H. now rewrite Nat.add_0_r in H. }
    simpl attempts. rewrite Hc.
    destruct (attempt (env i) st) as [st' w].
    destruct w; try reflexivity;
      destruct (no_objects_racing _ _ (self st')) as [s [[|]|]];
      try reflexivity;
      (apply IH; [reflexivity|]; intros j Hj;
       replace (S i + j)%nat with (i + S j)%nat by lia; apply Hcalm; lia).
Qed.

(** One turn of the loop when no callback runs after the last poll of the
    attempt. *)
Lemma attempts_step_calm (n i : nat) (st : State) (last : Late) :
  calm (env i) ->
  ending (env i) <> StillWaiting ->
  exists ev,
    attempts env i (S n) st last
    = match yield (env i) with
      | [] => attempts env (S i) n
                       (mkState (mkSelf (Has (latched (env i))) ev
                                        (retries (self st)))
                                (found_objects st) (trace st ++ cycle_actions))
                       no_late
      | _ => (mkState (mkSelf (Has (latched (env i))) ev (retries (self st)))
                      (found_objects st) (trace st ++ cycle_actions),
              Broke, no_late)
      end.
Proof.
  intros Hc Hend. unfold calm in Hc. simpl attempts.
  destruct (attempt_spec (env i) st) as [ev Hat]. rewrite Hat, Hc.
  exists ev.
  change (before_check no_late) with (@nil Callback).
  change (within_check no_late) with (@nil Callback).
  rewrite no_objects_racing_nil. cbn [self]. rewrite no_objects_quiet.
  pose proof (ending_not_faulted (env i)) as Hnf.
  destruct (ending (env i)); try contradiction;
    destruct (yield (env i)); reflexivity.
Qed.

Lemma attempts_step_pending (n i : nat) (st : State) (last : Late) :
  ending (env i) = StillWaiting ->
  exists ev,
    attempts env i (S n) st last
    = (mkState (mkSelf (Has (latched (env i))) ev (retries (self st)))
               (found_objects st) (trace st ++ cycle_actions),
       LoopPending, late (env i)).
Proof.
  intros Hend. simpl attempts.
  destruct (attempt_spec (env i) st) as [ev Hat]. rewrite Hat, Hend.
  exists ev. reflexivity.
Qed.

Lemma quiet_shift (i n : nat) :
  quiet (env i) ->
  (forall j, (j < n)%nat -> quiet (env (S i + j)%nat)) ->
  forall j, (j < S n)%nat -> quiet (env (i + j)%nat).
Proof.
  intros H0 Hn [|j] Hj.
  - now rewrite Nat.add_0_r.
  - replace (i + S j)%nat with (S i + j)%nat by lia. apply Hn. lia.
Qed.

(** The loop continues after a quiet attempt. *)
Lemma loop_post_continue (i n : nat) (st st1 st' : State) (le : LoopEnd) :
  quiet (env i) ->
  found_objects st1 = found_objects st ->
  retries (self st1) = retries (self st) ->
  trace st1 = trace st ++ cycle_actions ->
  after_attempt (env i) (retries (self st)) (self st1) ->
  loop_post env (S i) n st1 st' le ->
  loop_post env i (S n) st st' le.
Proof.
  intros Hq Hf Hr Ht Ha (Hf' & Hr' & Hle).
  split; [congruence|]. split; [congruence|].
  destruct le.
  - destruct Hle as (Htr & Hall & Hzero & Hlast).
    split; [|split; [|split]].
    + rewrite Htr, Ht, <- app_assoc. reflexivity.
    + now apply quiet_shift.
    + discriminate.
    + intros m Hm. injection Hm as <-. destruct n as [|n'].
      * rewrite (Hzero eq_refl), Nat.add_0_r. exact Ha.
      * replace (i + S n')%nat with (S i + n')%nat by lia.
        rewrite <- Hr. now apply Hlast.
  - destruct Hle as (k & Hk & Htr & Hall & Hhit & Hlast).
    exists (S k). split; [|split; [|split; [|split]]].
    + lia.
    + rewrite Htr, Ht, <- app_assoc. reflexivity.
    + now apply quiet_shift.
    + replace (i + S k)%nat with (S i + k)%nat by lia. exact Hhit.
    + replace (i + S k)%nat with (S i + k)%nat by lia.
      rewrite <- Hr. exact Hlast.
  - destruct Hle as (k & Hk & Htr & Hall & Hend).
    exists (S k). split; [|split; [|split]].
    + lia.
    + rewrite Htr, Ht, <- app_assoc. reflexivity.
    + now apply quiet_shift.
    + replace (i + S k)%nat with (S i + k)%nat by lia. exact Hend.
  - exact Hle.
Qed.

Lemma attempts_spec (n i : nat) (st : State) (last : Late) :
  (forall j, (j < n)%nat -> calm (env (i + j)%nat)) ->
  loop_post env i n st (fst (fst (attempts env i n st last)))
            (snd (fst (attempts env i n st last))).
Proof.
  revert i st last. induction n as [|n IH]; intros i st last Hcalm.
  - simpl. split; [reflexivity|]. split; [reflexivity|].
    split; [|split; [|split]].
    + now rewrite app_nil_r.
    + intros j Hj. lia.
    + reflexivity.
    + discriminate.
  - assert (Hc : calm (env i)).
    { pose proof (Hcalm 0%nat ltac:(lia)) as H. now rewrite Nat.add_0_r in H. }
    assert (Hnext : forall j, (j < n)%nat -> calm (env (S i + j)%nat)).
    { intros j Hj. replace (S i + j)%nat with (i + S j)%nat by lia.
      apply Hcalm. lia. }
    assert (Hdec : ending (env i) = StillWaiting \/
                   ending (env i) <> StillWaiting).
    { destruct (ending (env i)); auto; right; discriminate. }
    destruct Hdec as [Hend | Hend].
    + destruct (attempts_step_pending n i st last Hend) as [ev ->].
      cbn [fst snd]. split; [reflexivity|]. split; [reflexivity|].
      exists 0%nat. rewrite Nat.add_0_r. split; [|split; [|split]].
      * lia.
      * reflexivity.
      * intros j Hj. lia.
      * exact Hend.
    + destruct (attempts_step_calm n i st last Hc Hend) as [ev ->].
      destruct (yield (env i)) as [|o os] eqn:Y.
      * eapply loop_post_continue; [| | | | |apply IH; exact Hnext].
        -- split; [exact Hend | exact Y].
        -- reflexivity.
        -- reflexivity.
        -- reflexivity.
        -- exists ev. reflexivity.
      * cbn [fst snd]. split; [reflexivity|]. split; [reflexivity|].
        exists 0%nat. rewrite Nat.add_0_r.
        split; [|split; [|split; [|split]]].
        -- lia.
        -- reflexivity.
        -- intros j Hj. lia.
        -- split; [exact Hend|]. rewrite Y. discriminate.
        -- exists ev. reflexivity.
Qed.

Lemma triggers_cycles (tr : list Event) (k : nat) :
  triggers EVENT_IN_TOPIC (tr ++ concat (replicate k cycle_actions))
  = (triggers EVENT_IN_TOPIC tr + k)%nat.
Proof.
  unfold triggers. rewrite filter_app, length_app. f_equal.
  induction k as [|k IH]; [reflexivity|].
  change (concat (replicate (S k) cycle_actions))
    with (cycle_actions ++ concat (replicate k cycle_actions)).
  rewrite filter_app, length_app, IH. reflexivity.
Qed.

Lemma replicate_reset_before_trigger (k : nat) (cleared : list string) :
  reset_before_trigger EVENT_IN_TOPIC latch_fields cleared
                       (concat (replicate k cycle_actions)) = true.
Proof.
  revert cleared. induction k as [|k IH]; intros cleared.
  - reflexivity.
  - change (concat (replicate (S k) cycle_actions))
      with (cycle_actions ++ concat (replicate k cycle_actions)).
    unfold cycle_actions at 1. cbn [app reset_before_trigger].
    change (is_trigger EVENT_IN_TOPIC
                       (Publish EVENT_IN_TOPIC "e_trigger")) with true.
    cbv iota. rewrite IH. reflexivity.
Qed.

End ObjectRetries.

(** ** find_objects: the whole step *)

Section ObjectExecute.
Import find_objects.

Variable env : nat -> AttemptEnv.

Lemma quiet_not_hit (e : AttemptEnv) : quiet e -> hit e -> False.
Proof. intros [_ Hq] [_ Hh]. contradiction. Qed.

Lemma quiet_not_waiting (e : AttemptEnv) :
  quiet e -> ending e = StillWaiting -> False.
Proof. intros [Hq _] Hw. contradiction. Qed.

Lemma hit_not_waiting (e : AttemptEnv) :
  hit e -> ending e = StillWaiting -> False.
Proof. intros [Hh _] Hw. contradiction. Qed.

Lemma hit_latched (e : AttemptEnv) :
  hit e -> exists l, latched e = Some l /\ objects l = yield e.
Proof.
  intros [_ Hy]. unfold yield in *.
  destruct (latched e) as [l|]; [eauto | contradiction].
Qed.

Lemma execute_trace_attempts (st : State) :
  trace (fst (execute env st))
  = trace (fst (fst (attempts env 0 (Z.to_nat (retries (self st)))
                              (mkState (self st) None (trace st)) no_late))).
Proof.
  unfold execute. cbn [self retries].
  destruct (attempts env 0 (Z.to_nat (retries (self st)))
                     (mkState (self st) None (trace st)) no_late)
    as [[st1 le] l].
  destruct le; cbn [fst]; try reflexivity;
    destruct (no_objects_racing _ _ (self st1)) as [s [[|]|]];
    cbn [fst trace]; try reflexivity;
    destruct (object_list (foldl deliver s (before_store l))) as [|[ol|]];
    reflexivity.
Qed.

(** With at least one retry configured the step raises nothing, whatever
    the callbacks do: it returns one of two outcomes, or one of its waiting
    loops is still polling. *)
Lemma execute_outcomes (st : State) :
  (0 < retries (self st))%Z ->
  match snd (execute env st) with
  | Return (Some o) => o = "no_objects_found" \/ o = "objects_found"
  | Pending =>
    exists j, (j < Z.to_nat (retries (self st)))%nat /\
              ending (env j) = StillWaiting
  | _ => False
  end.
Proof.
  intros Hpos. unfold execute.
  set (st0 := mkState (self st) None (trace st)).
  change (retries (self st0)) with (retries (self st)).
  set (N := Z.to_nat (retries (self st))).
  assert (HN : (0 < N)%nat) by (unfold N; lia).
  pose proof (attempts_shape env N 0 st0 no_late) as Hshape.
  destruct (attempts env 0 N st0 no_late) as [[st1 le] l].
  destruct Hshape as (_ & _ & k & _ & _ & _ & Hle). cbn [fst snd] in Hle.
  assert (Hfinal : armed (self st1) ->
            match snd (match no_objects_racing (before_final l) (within_final l)
                                               (self st1) with
                       | (s, AttributeError) =>
                         (mkState s (found_objects st1) (trace st1),
                          Raise "AttributeError")
                       | (s, Ok true) =>
                         (mkState s (found_objects st1) (trace st1),
                          Return (Some "no_objects_found"))
                       | (s, Ok false) =>
                         match object_list (foldl deliver s (before_store l)) with
                         | Has (Some ol) =>
                           (mkState (foldl deliver s (before_store l))
                                    (Some (objects ol)) (trace st1),
                            Return (Some "objects_found"))
                         | _ => (mkState (foldl deliver s (before_store l))
                                         (found_objects st1) (trace st1),
                                 Raise "AttributeError")
                         end
                       end) with
            | Return (Some o) => o = "no_objects_found" \/ o = "objects_found"
            | Pending =>
              exists j, (j < N)%nat /\ ending (env j) = StillWaiting
            | _ => False
            end).
  { intros Ha.
    destruct (no_objects_racing_armed (before_final l) (within_final l)
                                      (self st1) Ha)
      as (_ & _ & [Hq | (Hb & x & Hx & _)]).
    - destruct (no_objects_racing _ _ (self st1)) as [s r].
      cbn [snd] in Hq. subst r. cbn [snd]. now left.
    - destruct (no_objects_racing _ _ (self st1)) as [s r].
      cbn [fst snd] in Hb, Hx. subst r.
      destruct (foldl_deliver_keeps_list (before_store l) s x Hx) as [x' Hx'].
      rewrite Hx'. cbn [snd]. now right. }
  destruct le.
  - apply Hfinal. apply Hle. exact HN.
  - apply Hfinal. exact Hle.
  - cbn [snd]. destruct Hle as (j & Hj & Hend). exists j.
    rewrite Nat.add_0_l in Hend. auto.
  - contradiction.
Qed.

Lemma no_objects_found_slot (st : State) :
  snd (execute env st) = Return (Some "no_objects_found") ->
  found_objects (fst (execute env st)) = None.
Proof.
  unfold execute.
  set (st0 := mkState (self st) None (trace st)).
  pose proof (attempts_shape env (Z.to_nat (retries (self st0))) 0 st0 no_late)
    as (Hf & _).
  destruct (attempts env 0 (Z.to_nat (retries (self st0))) st0 no_late)
    as [[st1 le] l].
  cbn [fst snd] in Hf.
  destruct le; cbn [fst snd]; try discriminate;
    destruct (no_objects_racing _ _ (self st1)) as [s [[|]|]];
    cbn [fst snd found_objects]; try discriminate; try (intros _; exact Hf);
    destruct (object_list (foldl deliver s (before_store l))) as [|[ol|]];
    cbn [fst snd]; discriminate.
Qed.

(** After 'objects_found' the slot holds a list: the one line 70 read. *)
Lemma objects_found_list (st : State) :
  snd (execute env st) = Return (Some "objects_found") ->
  exists l, found_objects (fst (execute env st)) = Some l.
Proof.
  unfold execute.
  destruct (attempts env 0 _ _ no_late) as [[st1 le] l].
  destruct le; cbn [fst snd]; try discriminate;
    destruct (no_objects_racing _ _ (self st1)) as [s [[|]|]];
    cbn [fst snd]; try discriminate;
    destruct (object_list (foldl deliver s (before_store l))) as [|[ol|]];
    cbn [fst snd found_objects]; try discriminate; eauto.
Qed.

(** Every run of the step with at least one retry configured and no
    callback after the last poll of an attempt is one of three: all
    attempts quiet, a first attempt with objects, or a first attempt whose
    waiting loop is still polling. *)
Lemma execute_cases (st : State) :
  (0 < retries (self st))%Z ->
  (forall j, (j < Z.to_nat (retries (self st)))%nat -> calm (env j)) ->
  match snd (execute env st) with
  | Return (Some o) =>
    (o = "no_objects_found" /\
     found_objects (fst (execute env st)) = None /\
     (forall j, (j < Z.to_nat (retries (self st)))%nat -> quiet (env j)) /\
     trace (fst (execute env st))
     = trace st ++ concat (replicate (Z.to_nat (retries (self st)))
                                     cycle_actions)) \/
    (o = "objects_found" /\
     exists k, (k < Z.to_nat (retries (self st)))%nat /\
       (forall j, (j < k)%nat -> quiet (env j)) /\
       hit (env k) /\
       found_objects (fst (execute env st)) = Some (yield (env k)) /\
       trace (fst (execute env st))
       = trace st ++ concat (replicate (S k) cycle_actions))
  | Pending =>
    exists k, (k < Z.to_nat (retries (self st)))%nat /\
      (forall j, (j < k)%nat -> quiet (env j)) /\
      ending (env k) = StillWaiting /\
      trace (fst (execute env st))
      = trace st ++ concat (replicate (S k) cycle_actions)
  | _ => False
  end.
Proof.
  intros Hpos Hcalm. unfold execute.
  set (st0 := mkState (self st) None (trace st)).
  change (retries (self st0)) with (retries (self st)).
  set (N := Z.to_nat (retries (self st))) in *.
  assert (HN : exists m, N = S m).
  { exists (Nat.pred N). unfold N. lia. }
  pose proof (attempts_spec env N 0 st0 no_late Hcalm) as Hpost.
  pose proof (attempts_late_calm env N 0 st0 no_late eq_refl Hcalm) as Hlate.
  destruct (attempts env 0 N st0 no_late) as [[st1 le] l].
  destruct Hpost as (Hf & Hr & Hle). cbn [fst snd] in *. subst l.
  change (before_final no_late) with (@nil Callback).
  change (within_final no_late) with (@nil Callback).
  change (before_store no_late) with (@nil Callback).
  rewrite no_objects_racing_nil. cbn [foldl].
  destruct le.
  - (* the loop ran out *)
    destruct Hle as (Htr & Hall & _ & Hlast).
    destruct HN as [m Hm]. destruct (Hlast m Hm) as [ev Hself].
    simpl in Hself. rewrite Hself, no_objects_quiet.
    destruct (Hall m ltac:(lia)) as [_ Hy]. simpl in Hy. rewrite Hy.
    cbn [fst snd found_objects trace]. left.
    split; [reflexivity|]. split; [exact Hf|]. split; [exact Hall|].
    exact Htr.
  - (* the loop was left with objects *)
    destruct Hle as (k & Hk & Htr & Hall & Hhit & [ev Hself]).
    simpl in Hhit, Hself.
    rewrite Hself, no_objects_quiet.
    destruct (hit_latched _ Hhit) as (l & Hl & Hobj).
    destruct Hhit as [Hend Hy].
    destruct (yield (env k)) as [|o os] eqn:Y; [contradiction|].
    cbn [object_list self]. rewrite Hl. cbn [fst snd found_objects trace].
    right. split; [reflexivity|]. exists k.
    split; [exact Hk|]. split; [exact Hall|].
    split; [split; [exact Hend | now rewrite Y]|].
    split; [now rewrite Hobj, Y | exact Htr].
  - (* a waiting loop has not ended *)
    destruct Hle as (k & Hk & Htr & Hall & Hend). cbn [fst snd].
    exists k. split; [exact Hk|]. split; [exact Hall|].
    split; [exact Hend | exact Htr].
  - contradiction.
Qed.

End ObjectExecute.

(** ** Traces of whole steps *)

Section StepTraces.

Lemma objects_execute_trace (env : nat -> find_objects.AttemptEnv)
      (st : find_objects.State) :
  exists k,
    find_objects.trace (fst (find_objects.execute env st))
    = find_objects.trace st
      ++ concat (replicate k find_objects.cycle_actions).
Proof.
  rewrite execute_trace_attempts.
  destruct (attempts_shape env
              (Z.to_nat (find_objects.retries (find_objects.self st))) 0
              (find_objects.mkState (find_objects.self st) None
                                    (find_objects.trace st))
              find_objects.no_late)
    as (_ & _ & k & _ & _ & Htr & _).
  exists k. exact Htr.
Qed.

Lemma cavities_execute_trace (env : find_cavities.Env)
      (selected_objects : list Object) (st : find_cavities.State) :
  exists k,
    find_cavities.trace (fst (find_cavities.execute env selected_objects st))
    = find_cavities.trace st
      ++ concat (find_cavities.cycle_actions <$> take k selected_objects).
Proof.
  unfold find_cavities.execute.
  destruct (acquire_trace env selected_objects 0 [] st) as (k & _ & Htr).
  destruct (find_cavities.acquire env 0 selected_objects [] st)
    as [st1 [local| |]]; cbn [fst find_cavities.trace] in *; eauto.
Qed.

End StepTraces.

(** ** Claims about find_objects *)

Section ObjectClaims.
Import find_objects samples.

(** C5 (retry bound): the code departs from it.  Three retries are
    configured.  In every attempt the detector publishes a list with one
    object and then the event "e_failed", so the waiting loop of every
    attempt ends in its failure branch.  The list is still in the latch
    when line 59 looks at it: the step leaves the retry loop after one
    trigger and returns 'objects_found', where the claim has three
    attempts and 'no_objects_found'.  When the detector reports the
    failure without a list, the three attempts are made. *)
Theorem C5_failed_attempt_ends_retries :
  retries (self objects.step3) = 3%Z /\
  ending objects.list_then_failed = Failed /\
  calm objects.list_then_failed /\
  snd (execute (fun _ => objects.list_then_failed) objects.step3)
  = Return (Some "objects_found") /\
  triggers EVENT_IN_TOPIC
           (trace (fst (execute (fun _ => objects.list_then_failed)
                                objects.step3))) = 1%nat /\
  ending objects.failing = Failed /\
  snd (execute (fun _ => objects.failing) objects.step3)
  = Return (Some "no_objects_found") /\
  triggers EVENT_IN_TOPIC
           (trace (fst (execute (fun _ => objects.failing) objects.step3)))
  = 3%nat.
Proof.
  split; [reflexivity|]. split; [reflexivity|]. split; [reflexivity|].
  split; [reflexivity|]. split; [reflexivity|]. split; [reflexivity|].
  split; reflexivity.
Qed.

(** C9 (no accumulation): the code departs from its last part.  The slot
    of [found_objects] as it was at entry plays no part in the step, and
    when the step returns 'no_objects_found' the slot is [None].  But line
    66 tests [self.object_list] and line 70 reads it again: when the
    attempt ended with the list [cup] and "e_done", and a second, empty
    list reaches the subscriber between the two lines, the step returns
    'objects_found' with an empty list in the slot. *)
Theorem C9_late_list_reaches_slot :
  (forall env st slot,
      execute env (mkState (self st) slot (trace st)) = execute env st) /\
  (forall env st,
      snd (execute env st) = Return (Some "no_objects_found") ->
      found_objects (fst (execute env st)) = None) /\
  ending objects.answered_twice = Done /\
  yield objects.answered_twice = [cup] /\
  snd (execute (fun _ => objects.answered_twice) objects.step3)
  = Return (Some "objects_found") /\
  found_objects (fst (execute (fun _ => objects.answered_twice)
                              objects.step3)) = Some [].
Proof.
  split; [intros env st slot; reflexivity|]. split.
  - intros env st. apply no_objects_found_slot.
  - split; [reflexivity|]. split; [reflexivity|]. split; reflexivity.
Qed.

Lemma C9_late_list_reaches_slot_witness :
  found_objects objects.step3 = Some [nut] /\
  snd (execute (fun _ => objects.silent) objects.step3)
  = Return (Some "no_objects_found") /\
  found_objects (fst (execute (fun _ => objects.silent) objects.step3))
  = None.
Proof.
  split; [reflexivity|]. split; [reflexivity|].
  exact (proj1 (proj2 C9_late_list_reaches_slot)
               (fun _ => objects.silent) objects.step3 eq_refl).
Defined.

End ObjectClaims.

(** ** Claims about do_visual_servoing *)

Section ServoingClaims.
Import do_visual_servoing.

(** C6 (status codes).  The four mapped codes give the four declared
    outcomes.  Any other code falls through every branch: the step raises
    nothing and returns [None], which is not a declared outcome. *)
Theorem C6_unmapped_code_returns_none (vscount code : Z) :
  execute (Response 0) vscount = (0%Z, Return (Some "succeeded")) /\
  execute (Response (-1)) vscount = (vscount, Return (Some "failed")) /\
  execute (Response (-2)) vscount = (vscount, Return (Some "timeout")) /\
  execute (Response (-3)) vscount = (vscount, Return (Some "lost_object")) /\
  (code <> 0%Z -> code <> (-1)%Z -> code <> (-2)%Z -> code <> (-3)%Z ->
   execute (Response code) vscount = (vscount, Return None) /\
   forall o, o ∈ outcomes -> Return (Some o) <> snd (execute (Response code) vscount)).
Proof.
  repeat (split; [reflexivity|]).
  intros H0 H1 H2 H3.
  assert (Heq : execute (Response code) vscount = (vscount, Return None)).
  { unfold execute.
    apply Z.eqb_neq in H0, H1, H2, H3. now rewrite H0, H1, H2, H3. }
  split; [exact Heq|]. intros o _. rewrite Heq. discriminate.
Qed.

Lemma C6_unmapped_code_returns_none_witness :
  execute (Response 1) 7 = (7%Z, Return None).
Proof.
  refine (proj1 (proj2 (proj2 (proj2 (proj2
            (C6_unmapped_code_returns_none 7 1)))) _ _ _ _));
    discriminate.
Defined.

End ServoingClaims.

(** ** Claims about find_cavities *)

Section CavityClaims.
Import find_cavities samples.

Lemma triggers_cavity_cycles (tr : list Event) (objs : list Object) :
  triggers EVENT_IN_TOPIC (tr ++ concat (cycle_actions <$> objs))
  = (triggers EVENT_IN_TOPIC tr + length objs)%nat.
Proof.
  unfold triggers. rewrite filter_app, length_app. f_equal.
  induction objs as [|obj objs IH]; [reflexivity|].
  rewrite fmap_cons.
  change (concat (cycle_actions obj :: (cycle_actions <$> objs)))
    with (cycle_actions obj ++ concat (cycle_actions <$> objs)).
  rewrite filter_app, length_app, IH. reflexivity.
Qed.

(** C7 (required count).  When every cycle leaves its waiting loop without
    a timeout, the step merges what it gathered and returns its verdict on
    the merged result set; and whenever the step returns anything but
    'timeout', that is 'succeeded' if the merged result set has as many
    entries as there are selected objects, and 'not_all_cavities_found' if
    not.  In particular, a result set that is unique by name and ends up
    with two names for three selected objects is not a success. *)
Theorem C7_required_count
        (env : Env) (selected_objects : list Object) (st : State) :
  ((forall j, (j < length selected_objects)%nat -> passes (cycles env j)) ->
   found_cavities (fst (execute env selected_objects st))
   = merge matching_threshold (found_cavities st)
           (transform_all env (frame_id (self st))
                          (collected env 0 selected_objects)) /\
   snd (execute env selected_objects st)
   = Return (Some (classify
                     (found_cavities (fst (execute env selected_objects st)))
                     selected_objects))) /\
  (forall outcome,
      snd (execute env selected_objects st) = Return (Some outcome) ->
      outcome <> "timeout" ->
      (exists local_found_cavities,
          found_cavities (fst (execute env selected_objects st))
          = merge matching_threshold (found_cavities st)
                  local_found_cavities) /\
      ((outcome = "succeeded" /\
        length (found_cavities (fst (execute env selected_objects st)))
        = length selected_objects) \/
       (outcome = "not_all_cavities_found" /\
        length (found_cavities (fst (execute env selected_objects st)))
        <> length selected_objects)) /\
      (NoDup (object_name <$> found_cavities st) ->
       length selected_objects = 3%nat ->
       unique_identities
         (found_cavities (fst (execute env selected_objects st))) = 2%nat ->
       outcome = "not_all_cavities_found")).
Proof.
  pose proof (acquire_found env selected_objects 0 [] st) as Hfound.
  pose proof (acquire_frame env selected_objects 0 [] st) as Hframe.
  split.
  - intros Hpass.
    pose proof (acquire_collected env selected_objects 0 [] st Hpass) as Hacq.
    unfold execute.
    destruct (acquire env 0 selected_objects [] st) as [st1 acq].
    cbn [fst snd] in *. subst acq. cbn [fst snd found_cavities app].
    rewrite Hfound, Hframe. split; reflexivity.
  - intros outcome. unfold execute.
    destruct (acquire env 0 selected_objects [] st) as [st1 [local| |]];
      cbn [fst snd] in *.
    + intros H _. injection H as <-. cbn [found_cavities]. rewrite Hfound.
      set (found' := merge matching_threshold (found_cavities st)
                           (transform_all env (frame_id (self st1)) local)).
      split; [eexists; reflexivity|].
      destruct (classify_cases found' selected_objects) as [[Hc Hl] | [Hc Hl]].
      * split; [left; now split|].
        intros Hu H3 H2. exfalso.
        rewrite unique_identities_length in H2
          by (apply merge_unique; exact Hu).
        lia.
      * split; [right; now split|]. intros _ _ _. exact Hc.
    + intros H Hne. injection H as <-. contradiction.
    + discriminate.
Qed.

Lemma C7_required_count_witness :
  (forall j, (j < length cavities.subjects)%nat ->
             passes (cycles cavities.two_of_three j)) /\
  snd (execute cavities.two_of_three cavities.subjects cavities.empty_step)
  = Return (Some "not_all_cavities_found") /\
  length (found_cavities
            (fst (execute cavities.two_of_three cavities.subjects
                          cavities.empty_step)))
  <> length cavities.subjects.
Proof.
  assert (Hpass : forall j, (j < length cavities.subjects)%nat ->
                            passes (cycles cavities.two_of_three j)).
  { intros [|[|[|j]]] Hj; left; eexists; reflexivity. }
  split; [exact Hpass|].
  destruct (C7_required_count cavities.two_of_three cavities.subjects
                              cavities.empty_step) as [Htotal Hchar].
  destruct (Htotal Hpass) as [_ Hout].
  split; [exact Hout|].
  destruct (Hchar "not_all_cavities_found" Hout ltac:(discriminate))
    as (_ & [[Hs _] | [_ Hlen]] & _).
  - discriminate Hs.
  - exact Hlen.
Defined.

(** C10 (timeout atomicity).  If the wait for subject [k] is the first to
    end in a timeout, the step returns 'timeout', the result set is as it
    was at entry, and the trace holds the cycles of the subjects up to
    [k] and no other: later subjects are never triggered. *)
Theorem C10_timeout_atomicity
        (env : Env) (selected_objects : list Object) (st : State) (k : nat) :
  (k < length selected_objects)%nat ->
  (forall j, (j < k)%nat -> passes (cycles env j)) ->
  cycle_end (cycles env k) = TimedOut ->
  snd (execute env selected_objects st) = Return (Some "timeout") /\
  found_cavities (fst (execute env selected_objects st))
  = found_cavities st /\
  trace (fst (execute env selected_objects st))
  = trace st ++ concat (cycle_actions <$> take (S k) selected_objects) /\
  triggers EVENT_IN_TOPIC (trace (fst (execute env selected_objects st)))
  = (triggers EVENT_IN_TOPIC (trace st) + S k)%nat.
Proof.
  intros Hk Hpass Hend.
  destruct (acquire_timeout env selected_objects k 0 [] st Hk Hpass Hend)
    as [Hout Htr].
  pose proof (acquire_found env selected_objects 0 [] st) as Hfound.
  unfold execute.
  destruct (acquire env 0 selected_objects [] st) as [st1 acq].
  cbn [fst snd] in *. subst acq. cbn [fst snd].
  split; [reflexivity|]. split; [exact Hfound|]. split; [exact Htr|].
  rewrite Htr, triggers_cavity_cycles, length_take. f_equal. lia.
Qed.

Lemma C10_timeout_atomicity_witness :
  (1 < length cavities.subjects)%nat /\
  (forall j, (j < 1)%nat -> passes (cycles cavities.second_times_out j)) /\
  cycle_end (cycles cavities.second_times_out 1) = TimedOut /\
  snd (execute cavities.second_times_out cavities.subjects
               cavities.earlier_step) = Return (Some "timeout") /\
  found_cavities (fst (execute cavities.second_times_out cavities.subjects
                               cavities.earlier_step))
  = found_cavities cavities.earlier_step.
Proof.
  assert (Hk : (1 < length cavities.subjects)%nat) by (simpl; lia).
  assert (Hpass : forall j, (j < 1)%nat ->
                            passes (cycles cavities.second_times_out j)).
  { intros [|j] Hj; [|lia]. left. eexists. reflexivity. }
  assert (Hend : cycle_end (cycles cavities.second_times_out 1) = TimedOut)
    by reflexivity.
  split; [exact Hk|]. split; [exact Hpass|]. split; [exact Hend|].
  destruct (C10_timeout_atomicity cavities.second_times_out cavities.subjects
                                  cavities.earlier_step 1 Hk Hpass Hend)
    as (Hout & Hfound & _).
  split; [exact Hout | exact Hfound].
Defined.

End CavityClaims.

(** ** Reset before trigger *)

Section ResetClaims.

(** C8 (reset before trigger).  In every run of [find_objects] and of
    [find_cavities], each trigger is published after the latch of the
    step was cleared since the previous trigger.  Hence what an attempt
    of [find_objects] finds in its latch, and the cavity that ends a
    cycle of [find_cavities], was delivered after the latch was cleared
    for that very cycle, whatever the latch held before. *)
Theorem C8_reset_before_trigger :
  (forall env st, exists acts,
      find_objects.trace (fst (find_objects.execute env st))
      = find_objects.trace st ++ acts /\
      reset_before_trigger find_objects.EVENT_IN_TOPIC
                           find_objects.latch_fields [] acts = true) /\
  (forall env selected_objects st, exists acts,
      find_cavities.trace (fst (find_cavities.execute env selected_objects st))
      = find_cavities.trace st ++ acts /\
      reset_before_trigger find_cavities.EVENT_IN_TOPIC
                           find_cavities.latch_fields [] acts = true) /\
  (forall e st l,
      find_objects.object_list
        (find_objects.self (fst (find_objects.attempt e st)))
      = Has (Some l) ->
      find_objects.ObjectListMsg l ∈ find_objects.delivered e) /\
  (forall e st m,
      find_objects.event_msg
        (find_objects.self (fst (find_objects.attempt e st)))
      = Has m ->
      m = "" \/ find_objects.EventOutMsg m ∈ find_objects.delivered e) /\
  (forall obj e st s' c,
      find_cavities.wait (find_cavities.start_time e) (find_cavities.ticks e)
        (find_cavities.self (find_cavities.reset_and_trigger obj st))
      = (s', find_cavities.Received c) ->
      c ∈ find_cavities.delivered e).
Proof.
  split; [|split; [|split; [|split]]].
  - intros env st. destruct (objects_execute_trace env st) as [k Hk].
    eexists. split; [exact Hk|]. apply replicate_reset_before_trigger.
  - intros env selected_objects st.
    destruct (cavities_execute_trace env selected_objects st) as [k Hk].
    eexists. split; [exact Hk|]. apply cycles_reset_before_trigger.
  - intros e st l. unfold find_objects.attempt.
    destruct (find_objects.wait (find_objects.start_time e)
                (find_objects.ticks e)
                (find_objects.self (find_objects.reset_and_trigger st)))
      as [s' w] eqn:E.
    cbn [fst find_objects.self]. intros H.
    pose proof (wait_list (find_objects.start_time e) (find_objects.ticks e)
                  (find_objects.self (find_objects.reset_and_trigger st)) l)
      as Hw.
    rewrite E in Hw. destruct (Hw H) as [Hold | Hnew]; [|exact Hnew].
    discriminate.
  - intros e st m. unfold find_objects.attempt.
    destruct (find_objects.wait (find_objects.start_time e)
                (find_objects.ticks e)
                (find_objects.self (find_objects.reset_and_trigger st)))
      as [s' w] eqn:E.
    cbn [fst find_objects.self]. intros H.
    pose proof (wait_event (find_objects.start_time e) (find_objects.ticks e)
                  (find_objects.self (find_objects.reset_and_trigger st)) m)
      as Hw.
    rewrite E in Hw. destruct (Hw H) as [Hold | Hnew]; [|now right].
    left. simpl in Hold. now injection Hold.
  - intros obj e st s' c H.
    eapply wait_received; [|exact H]. reflexivity.
Qed.

Lemma C8_reset_before_trigger_witness :
  find_objects.object_list
    (find_objects.self
       (fst (find_objects.attempt samples.objects.answering
                                  samples.objects.step3)))
  = Has (Some (mkObjectList [samples.cup])) /\
  find_objects.ObjectListMsg (mkObjectList [samples.cup])
  ∈ find_objects.delivered samples.objects.answering.
Proof.
  destruct C8_reset_before_trigger as (_ & _ & Hlist & _ & _).
  split; [reflexivity|].
  exact (Hlist samples.objects.answering samples.objects.step3
               (mkObjectList [samples.cup]) eq_refl).
Defined.

End ResetClaims.

(** ** transform_object_poses: the loop over the objects *)

Section PoseLoop.
Import transform_object_poses.

Variable tf : TfEnv.
Variable f : string.

Lemma tf_pose_calls (i : nat) (obj : Object) (p : Pose) :
  tf_pose tf f i obj = Some p <->
  (exists u, waitForTransform tf i f (object_pose obj) = TfReturn u) /\
  transformPose tf i f (object_pose obj) = TfReturn p.
Proof.
  unfold tf_pose. split.
  - destruct (waitForTransform tf i f (object_pose obj)) as [u| |exn];
      try discriminate.
    destruct (transformPose tf i f (object_pose obj)) as [q| |exn];
      try discriminate.
    intros H. injection H as ->. split; eauto.
  - intros [[u Hw] Ht]. now rewrite Hw, Ht.
Qed.

(** Whatever ends the loop, the objects keep their number, order and
    names. *)
Lemma transform_from_names (objs : list Object) (i : nat) :
  name <$> fst (transform_from tf f i objs) = name <$> objs.
Proof.
  revert i. induction objs as [|obj rest IH]; intros i; [reflexivity|].
  simpl transform_from.
  destruct (waitForTransform tf i f (object_pose obj)) as [u| |exn];
    try reflexivity.
  destruct (transformPose tf i f (object_pose obj)) as [p| |exn];
    try reflexivity.
  specialize (IH (S i)).
  destruct (transform_from tf f (S i) rest) as [rest' e].
  cbn [fst] in *. rewrite !fmap_cons. cbn [name]. now rewrite IH.
Qed.

(** The loop stops at the first object whose transform fails; the objects
    before it have their new pose, the others are as they were. *)
Lemma transform_from_stops (objs : list Object) (i k : nat) (obj : Object) :
  objs !! k = Some obj ->
  (forall j o, (j < k)%nat -> objs !! j = Some o ->
               is_Some (tf_pose tf f (i + j) o)) ->
  tf_caught tf f (i + k) obj = true ->
  snd (transform_from tf f i objs) = TfError /\
  (forall j o, (j < k)%nat -> objs !! j = Some o ->
     exists p, tf_pose tf f (i + j) o = Some p /\
               fst (transform_from tf f i objs) !! j
               = Some (mkObject (name o) p)) /\
  drop k (fst (transform_from tf f i objs)) = drop k objs.
Proof.
  revert i k. induction objs as [|obj0 rest IH]; intros i k Hk Hbefore Hfail.
  - discriminate.
  - destruct k as [|k].
    + simpl in Hk. injection Hk as ->. rewrite Nat.add_0_r in Hfail.
      unfold tf_caught in Hfail. simpl transform_from.
      destruct (waitForTransform tf i f (object_pose obj)) as [u| |exn];
        try discriminate.
      * destruct (transformPose tf i f (object_pose obj)) as [p| |exn];
          try discriminate.
        split; [reflexivity|]. split; [intros j o Hj; lia | reflexivity].
      * split; [reflexivity|]. split; [intros j o Hj; lia | reflexivity].
    + simpl in Hk.
      destruct (Hbefore 0%nat obj0 ltac:(lia) eq_refl) as [p0 Hp0].
      rewrite Nat.add_0_r in Hp0.
      pose proof (proj1 (tf_pose_calls i obj0 p0) Hp0) as [[u Hw] Ht].
      simpl transform_from. rewrite Hw, Ht.
      destruct (IH (S i) k Hk) as (Hend & Hpre & Hrest).
      { intros j o Hj Ho.
        replace (S i + j)%nat with (i + S j)%nat by lia.
        apply (Hbefore (S j) o); [lia | exact Ho]. }
      { now replace (S i + k)%nat with (i + S k)%nat by lia. }
      destruct (transform_from tf f (S i) rest) as [rest' e].
      cbn [fst snd] in *. split; [exact Hend|]. split; [|exact Hrest].
      intros [|j] o Hj Ho.
      * simpl in Ho. injection Ho as <-. exists p0.
        rewrite Nat.add_0_r. split; [exact Hp0 | reflexivity].
      * simpl in Ho. destruct (Hpre j o ltac:(lia) Ho) as (p & Hp & Hl).
        exists p. replace (i + S j)%nat with (S i + j)%nat by lia.
        split; [exact Hp | exact Hl].
Qed.

(** When every transform succeeds the loop runs to its end and every
    object has its new pose. *)
Lemma transform_from_all (objs : list Object) (i : nat) :
  (forall j o, objs !! j = Some o -> is_Some (tf_pose tf f (i + j) o)) ->
  snd (transform_from tf f i objs) = Finished /\
  (forall j o, objs !! j = Some o ->
     exists p, tf_pose tf f (i + j) o = Some p /\
               fst (transform_from tf f i objs) !! j
               = Some (mkObject (name o) p)).
Proof.
  revert i. induction objs as [|obj0 rest IH]; intros i Hall.
  - split; [reflexivity|]. intros j o Ho. discriminate.
  - destruct (Hall 0%nat obj0 eq_refl) as [p0 Hp0].
    rewrite Nat.add_0_r in Hp0.
    pose proof (proj1 (tf_pose_calls i obj0 p0) Hp0) as [[u Hw] Ht].
    simpl transform_from. rewrite Hw, Ht.
    destruct (IH (S i)) as (Hend & Hpre).
    { intros j o Ho. replace (S i + j)%nat with (i + S j)%nat by lia.
      now apply (Hall (S j) o). }
    destruct (transform_from tf f (S i) rest) as [rest' e].
    cbn [fst snd] in *. split; [exact Hend|].
    intros [|j] o Ho.
    + simpl in Ho. injection Ho as <-. exists p0.
      rewrite Nat.add_0_r. split; [exact Hp0 | reflexivity].
    + simpl in Ho. destruct (Hpre j o Ho) as (p & Hp & Hl).
      exists p. replace (i + S j)%nat with (S i + j)%nat by lia.
      split; [exact Hp | exact Hl].
Qed.

Lemma transform_from_tame (objs : list Object) (i : nat) :
  tame tf ->
  snd (transform_from tf f i objs) = Finished \/
  snd (transform_from tf f i objs) = TfError.
Proof.
  intros Htame. revert i.
  induction objs as [|obj rest IH]; intros i; [now left|].
  simpl transform_from. destruct (Htame i f (object_pose obj)) as [Hw Ht].
  destruct (waitForTransform tf i f (object_pose obj)) as [u| |exn].
  - destruct (transformPose tf i f (object_pose obj)) as [p| |exn].
    + specialize (IH (S i)).
      destruct (transform_from tf f (S i) rest) as [rest' e]. exact IH.
    + now right.
    + now destruct (Ht exn).
  - now right.
  - now destruct (Hw exn).
Qed.

End PoseLoop.

(** ** transform_object_poses: the step *)

Section PoseStep.
Import transform_object_poses.

Lemma pose_execute_names
      (tf : TfEnv) (frame_id : option string) (objs : list Object) :
  exists objs',
    fst (execute tf frame_id (Some objs)) = Some objs' /\
    name <$> objs' = name <$> objs /\
    length objs' = length objs.
Proof.
  assert (Hlen : forall l l' : list Object,
             name <$> l' = name <$> l -> length l' = length l).
  { intros l l' H. apply (f_equal length) in H.
    now rewrite !length_fmap in H. }
  unfold execute. destruct (find_cavities.truthy frame_id) as [f|].
  - pose proof (transform_from_names tf f objs 0) as Hn.
    destruct (transform_from tf f 0 objs) as [objs' [| |exn]];
      cbn [fst] in *; exists objs'; auto.
  - exists objs. auto.
Qed.

(** X1.  Whatever the outcome of [transform_object_poses], also when the
    listener raises, the slot holds the same objects afterwards: as many,
    in the same order, under the same names. *)
Theorem transform_keeps_objects
        (tf : TfEnv) (frame_id : option string) (objs : list Object) :
  exists objs',
    fst (execute tf frame_id (Some objs)) = Some objs' /\
    name <$> objs' = name <$> objs /\
    length objs' = length objs.
Proof. apply pose_execute_names. Qed.

(** X2.  With a frame configured, [transform_object_poses] stops at the
    first object whose transform raises an exception it catches and
    returns 'tf_error'; the objects before it already carry their new
    pose, that object and the ones after it are as they were. *)
Theorem transform_stops_at_first_failure
        (tf : TfEnv) (frame_id : option string) (f : string)
        (objs : list Object) (k : nat) (obj : Object) :
  find_cavities.truthy frame_id = Some f ->
  objs !! k = Some obj ->
  (forall j o, (j < k)%nat -> objs !! j = Some o ->
               is_Some (tf_pose tf f j o)) ->
  tf_caught tf f k obj = true ->
  snd (execute tf frame_id (Some objs)) = Return (Some "tf_error") /\
  exists objs',
    fst (execute tf frame_id (Some objs)) = Some objs' /\
    (forall j o, (j < k)%nat -> objs !! j = Some o ->
       exists p, tf_pose tf f j o = Some p /\
                 objs' !! j = Some (mkObject (name o) p)) /\
    drop k objs' = drop k objs.
Proof.
  intros Hf Hk Hbefore Hfail. unfold execute. rewrite Hf.
  destruct (transform_from_stops tf f objs 0 k obj Hk Hbefore Hfail)
    as (Hend & Hpre & Hrest).
  destruct (transform_from tf f 0 objs) as [objs' e].
  cbn [fst snd] in *. subst e. cbn [fst snd].
  split; [reflexivity|]. exists objs'. auto.
Qed.

Lemma transform_stops_at_first_failure_witness :
  snd (execute scenarios.tf_second_fails (Some scenarios.base)
               (Some [samples.cup; samples.nut; samples.bolt]))
  = Return (Some "tf_error") /\
  exists objs',
    fst (execute scenarios.tf_second_fails (Some scenarios.base)
                 (Some [samples.cup; samples.nut; samples.bolt]))
    = Some objs' /\
    drop 1 objs' = [samples.nut; samples.bolt].
Proof.
  destruct (transform_stops_at_first_failure
              scenarios.tf_second_fails (Some scenarios.base) scenarios.base
              [samples.cup; samples.nut; samples.bolt] 1 samples.nut
              eq_refl eq_refl) as (Hout & objs' & Hfst & _ & Hrest).
  - intros [|j] o Hj Ho; [|lia]. injection Ho as <-. eexists. reflexivity.
  - reflexivity.
  - split; [exact Hout|]. exists objs'. split; [exact Hfst | exact Hrest].
Defined.

(** X3.  With a frame configured, when the transform of every object
    returns, [transform_object_poses] returns 'succeeded' and every object
    carries the pose the listener gave for it, under its old name. *)
Theorem transform_succeeds
        (tf : TfEnv) (frame_id : option string) (f : string)
        (objs : list Object) :
  find_cavities.truthy frame_id = Some f ->
  (forall j o, objs !! j = Some o -> is_Some (tf_pose tf f j o)) ->
  snd (execute tf frame_id (Some objs)) = Return (Some "succeeded") /\
  exists objs',
    fst (execute tf frame_id (Some objs)) = Some objs' /\
    forall j o, objs !! j = Some o ->
      exists p, tf_pose tf f j o = Some p /\
                objs' !! j = Some (mkObject (name o) p).
Proof.
  intros Hf Hall. unfold execute. rewrite Hf.
  destruct (transform_from_all tf f objs 0 Hall) as (Hend & Hpre).
  destruct (transform_from tf f 0 objs) as [objs' e].
  cbn [fst snd] in *. subst e. cbn [fst snd].
  split; [reflexivity|]. exists objs'. auto.
Qed.

Lemma transform_succeeds_witness :
  snd (execute scenarios.tf_fine (Some scenarios.base) (Some [samples.cup]))
  = Return (Some "succeeded") /\
  exists objs',
    fst (execute scenarios.tf_fine (Some scenarios.base) (Some [samples.cup]))
    = Some objs' /\
    objs' !! 0%nat = Some (mkObject "cup" (mkPose "base_link" 100)).
Proof.
  destruct (transform_succeeds scenarios.tf_fine (Some scenarios.base)
                               scenarios.base [samples.cup] eq_refl)
    as (Hout & objs' & Hfst & Hall).
  - intros [|j] o Ho; [|discriminate]. eexists. reflexivity.
  - split; [exact Hout|]. exists objs'. split; [exact Hfst|].
    destruct (Hall 0%nat samples.cup eq_refl) as (p & Hp & Hl).
    injection Hp as <-. exact Hl.
Defined.

(** X4.  As long as the listener raises nothing but the three exceptions
    the step catches, [transform_object_poses] run on a list returns one of
    its three declared outcomes; it returns 'no_frame_specified' exactly
    when [frame_id] is [None] or empty, and then the list is untouched. *)
Theorem transform_outcome_declared
        (tf : TfEnv) (frame_id : option string) (objs : list Object) :
  tame tf ->
  exists o,
    snd (execute tf frame_id (Some objs)) = Return (Some o) /\
    o ∈ outcomes /\
    (o = "no_frame_specified" <-> (frame_id = None \/ frame_id = Some "")) /\
    (o = "no_frame_specified" ->
     fst (execute tf frame_id (Some objs)) = Some objs).
Proof.
  intros Htame. unfold execute.
  destruct (find_cavities.truthy frame_id) as [f|] eqn:Hf.
  - assert (Hsome : ~ (frame_id = None \/ frame_id = Some "")).
    { intros [-> | ->]; discriminate. }
    destruct (transform_from_tame tf f objs 0 Htame) as [He | He];
      destruct (transform_from tf f 0 objs) as [objs' e];
      cbn [fst snd] in *; subst e; cbn [fst snd].
    + exists "succeeded". split; [reflexivity|]. split.
      * unfold outcomes. apply list_elem_of_In. simpl. auto.
      * split; [split; [discriminate | contradiction] | discriminate].
    + exists "tf_error". split; [reflexivity|]. split.
      * unfold outcomes. apply list_elem_of_In. simpl. auto.
      * split; [split; [discriminate | contradiction] | discriminate].
  - exists "no_frame_specified". split; [reflexivity|]. split.
    + unfold outcomes. apply list_elem_of_In. simpl. auto.
    + split; [|reflexivity]. split; [|reflexivity]. intros _.
      destruct frame_id as [[|a fr]|]; try discriminate; auto.
Qed.

Lemma transform_outcome_declared_witness :
  tame scenarios.tf_second_fails /\
  exists o,
    snd (execute scenarios.tf_second_fails (Some scenarios.base)
                 (Some [samples.cup; samples.nut])) = Return (Some o) /\
    o ∈ outcomes.
Proof.
  assert (Htame : tame scenarios.tf_second_fails).
  { intros i fr p. split; intros exn.
    - simpl. destruct i as [|[|i]]; discriminate.
    - discriminate. }
  split; [exact Htame|].
  destruct (transform_outcome_declared
              scenarios.tf_second_fails (Some scenarios.base)
              [samples.cup; samples.nut] Htame) as (o & Hout & Hin & _).
  exists o. split; [exact Hout | exact Hin].
Defined.

(** X5.  [find_objects] followed by [transform_object_poses] with a frame
    configured: after 'no_objects_found' the slot is [None] and the second
    step raises a TypeError instead of returning an outcome; after
    'objects_found' the slot is a list, and with a listener that raises
    only what the step catches the second step returns 'succeeded' or
    'tf_error' and leaves as many objects as it found. *)
Theorem objects_then_transform
        (env : nat -> find_objects.AttemptEnv) (st : find_objects.State)
        (tf : TfEnv) (frame_id : option string) (f : string) :
  find_cavities.truthy frame_id = Some f ->
  (snd (find_objects.execute env st) = Return (Some "no_objects_found") ->
   execute tf frame_id
           (find_objects.found_objects (fst (find_objects.execute env st)))
   = (None, Raise "TypeError")) /\
  (snd (find_objects.execute env st) = Return (Some "objects_found") ->
   tame tf ->
   exists l l' o,
     find_objects.found_objects (fst (find_objects.execute env st)) = Some l /\
     execute tf frame_id (Some l) = (Some l', Return (Some o)) /\
     (o = "succeeded" \/ o = "tf_error") /\
     length l' = length l).
Proof.
  intros Hf. split.
  - intros Hout. rewrite (no_objects_found_slot env st Hout).
    unfold execute. now rewrite Hf.
  - intros Hout Htame.
    destruct (objects_found_list env st Hout) as (l & Hl).
    exists l.
    assert (Hrun : exists l' o,
               execute tf frame_id (Some l) = (Some l', Return (Some o)) /\
               (o = "succeeded" \/ o = "tf_error") /\
               length l' = length l).
    { pose proof (transform_from_names tf f l 0) as Hn.
      apply (f_equal length) in Hn. rewrite !length_fmap in Hn.
      unfold execute. rewrite Hf.
      destruct (transform_from_tame tf f l 0 Htame) as [He | He];
        destruct (transform_from tf f 0 l) as [l' e];
        cbn [fst snd] in *; subst e.
      - exists l', "succeeded".
        split; [reflexivity|]. split; [now left | exact Hn].
      - exists l', "tf_error".
        split; [reflexivity|]. split; [now right | exact Hn]. }
    destruct Hrun as (l' & o & Hrun & Ho & Hlen).
    exists l', o. auto.
Qed.

Lemma objects_then_transform_witness :
  find_cavities.truthy (Some scenarios.base) = Some scenarios.base /\
  snd (find_objects.execute (fun _ => samples.objects.silent)
                            samples.objects.step3)
  = Return (Some "no_objects_found") /\
  execute scenarios.tf_fine (Some scenarios.base)
          (find_objects.found_objects
             (fst (find_objects.execute (fun _ => samples.objects.silent)
                                        samples.objects.step3)))
  = (None, Raise "TypeError").
Proof.
  split; [reflexivity|]. split; [reflexivity|].
  exact (proj1 (objects_then_transform
                  (fun _ => samples.objects.silent) samples.objects.step3
                  scenarios.tf_fine (Some scenarios.base) scenarios.base
                  eq_refl)
               eq_refl).
Defined.

End PoseStep.

(** ** find_objects: bounds, deadline and edge cases *)

Section ObjectBounds.
Import find_objects.

Lemma poll_cases (s : Self) (start : Z) (t : Tick) (r : option WaitEnd) :
  poll s start t = Ok r ->
  exists m, event_msg s = Has m /\
    match r with
    | Some Done =>
      m = "e_done" /\ exists l, object_list s = Has (Some l)
    | Some Failed => m = "e_failed"
    | Some TimedOut => (now t - start > timeout)%Z
    | Some _ => False
    | None => (now t - start <= timeout)%Z
    end.
Proof.
  unfold poll. destruct (event_msg s) as [|m]; [discriminate|]. simpl.
  intros H. exists m. split; [reflexivity|].
  assert (Htail :
            (if String.eqb m "e_failed" then Ok (Some Failed)
             else if (now t - start >? timeout)%Z then Ok (Some TimedOut)
                  else Ok None) = Ok r ->
            match r with
            | Some Done => m = "e_done" /\ exists l, object_list s = Has (Some l)
            | Some Failed => m = "e_failed"
            | Some TimedOut => (now t - start > timeout)%Z
            | Some _ => False
            | None => (now t - start <= timeout)%Z
            end).
  { destruct (String.eqb m "e_failed") eqn:Ef.
    - intros Hr. injection Hr as <-. now apply String.eqb_eq.
    - destruct (now t - start >? timeout)%Z eqn:Hc; intros Hr;
        injection Hr as <-; rewrite Z.gtb_ltb in Hc.
      + apply Z.ltb_lt in Hc. lia.
      + apply Z.ltb_ge in Hc. lia. }
  destruct (String.eqb m "e_done") eqn:Ed; simpl in H.
  - destruct (object_list s) as [|ol]; [discriminate|]. simpl in H.
    destruct ol as [l|]; simpl in H.
    + injection H as <-. split; [now apply String.eqb_eq | eauto].
    + now apply Htail.
  - now apply Htail.
Qed.

(** The loop is left as [Done] only with a list in the latch and "e_done"
    as the last event. *)
Lemma wait_done (start : Z) (script : list Tick) (s s' : Self) :
  wait start script s = (s', Done) ->
  event_msg s' = Has "e_done" /\ exists l, object_list s' = Has (Some l).
Proof.
  revert s. induction script as [|t script IH]; intros s; simpl.
  - discriminate.
  - destruct (poll (foldl deliver s (arrivals t)) start t) as [[w|]|] eqn:E.
    + intros H. injection H as <- ->.
      destruct (poll_cases _ _ _ _ E) as (m & Hm & -> & Hl).
      split; assumption.
    + apply IH.
    + discriminate.
Qed.

Lemma wait_not_early (start : Z) (script : list Tick) (s : Self) :
  (forall t, t ∈ script -> (now t - start <= timeout)%Z) ->
  snd (wait start script s) <> TimedOut.
Proof.
  revert s. induction script as [|t script IH]; intros s Hearly; simpl.
  - discriminate.
  - destruct (poll (foldl deliver s (arrivals t)) start t) as [[w|]|] eqn:E.
    + simpl. intros ->.
      destruct (poll_cases _ _ _ _ E) as (m & _ & Hlate).
      pose proof (Hearly t ltac:(now left)). lia.
    + apply IH. intros t' Ht'. apply Hearly. now right.
    + discriminate.
Qed.

Lemma wait_cut (start : Z) (pre : list Tick) (t : Tick) (post : list Tick)
      (s : Self) :
  (now t - start > timeout)%Z ->
  wait start (pre ++ t :: post) s = wait start (pre ++ [t]) s.
Proof.
  intros Hlate. revert s. induction pre as [|t0 pre IH]; intros s; simpl.
  - destruct (poll (foldl deliver s (arrivals t)) start t) as [[w|]|] eqn:E;
      try reflexivity.
    destruct (poll_cases _ _ _ _ E) as (m & _ & Hle). lia.
  - destruct (poll (foldl deliver s (arrivals t0)) start t0) as [[w|]|];
      try reflexivity.
    apply IH.
Qed.

(** X6.  One run of [find_objects] publishes at most [retries] triggers,
    whatever the detector does, and at least one when [retries] is
    positive; nothing else is added to what the step has published. *)
Theorem find_objects_trigger_bound (env : nat -> AttemptEnv) (st : State) :
  exists k,
    trace (fst (execute env st))
    = trace st ++ concat (replicate k cycle_actions) /\
    (k <= Z.to_nat (retries (self st)))%nat /\
    ((0 < retries (self st))%Z -> (1 <= k)%nat) /\
    triggers EVENT_IN_TOPIC (trace (fst (execute env st)))
    = (triggers EVENT_IN_TOPIC (trace st) + k)%nat.
Proof.
  rewrite execute_trace_attempts.
  set (st0 := mkState (self st) None (trace st)).
  set (N := Z.to_nat (retries (self st))).
  destruct (attempts_shape env N 0 st0 no_late)
    as (_ & _ & k & Hle & Hpos & Htr & _).
  exists k.
  split; [exact Htr|]. split; [exact Hle|]. split.
  - intros Hr. apply Hpos. unfold N. lia.
  - rewrite Htr. apply triggers_cycles.
Qed.



(** X8.  The waiting loop of [find_objects] keeps its deadline: it does not
    end in a timeout while every clock reading is within 10 s of the
    start, and it never polls again after a reading beyond 10 s (what the
    script holds after that poll plays no part). *)
Theorem find_objects_wait_deadline (start : Z) (s : Self) :
  (forall script,
      (forall t, t ∈ script -> (now t - start <= timeout)%Z) ->
      snd (wait start script s) <> TimedOut) /\
  (forall pre t post,
      (now t - start > timeout)%Z ->
      wait start (pre ++ t :: post) s = wait start (pre ++ [t]) s /\
      snd (wait start (pre ++ t :: post) s) <> StillWaiting).
Proof.
  split.
  - intros script. apply wait_not_early.
  - intros pre t post Hlate. split.
    + now apply wait_cut.
    + apply object_wait_ends. exists t. split; [|exact Hlate].
      apply elem_of_app. right. now left.
Qed.

Lemma find_objects_wait_deadline_witness :
  snd (wait 0 (samples.objects.idle 0 101)
            (fresh 3)) = StillWaiting /\
  snd (wait 0 (samples.objects.idle 0 101
               ++ mkTick [] (101 * samples.tenth)
               :: [mkTick [EventOutMsg "e_failed"] (102 * samples.tenth)])
            (fresh 3)) = TimedOut.
Proof.
  destruct (find_objects_wait_deadline 0 (fresh 3)) as [Hearly Hcut].
  split; [reflexivity|].
  destruct (Hcut (samples.objects.idle 0 101)
                 (mkTick [] (101 * samples.tenth))
                 [mkTick [EventOutMsg "e_failed"] (102 * samples.tenth)]
                 ltac:(reflexivity)) as [Heq _].
  rewrite Heq. reflexivity.
Defined.

(** X9.  With [retries >= 1], if in every attempt the clock gets past the
    deadline, [find_objects] returns, and what it returns is one of its
    two declared outcomes. *)
Theorem find_objects_returns (env : nat -> AttemptEnv) (st : State) :
  (0 < retries (self st))%Z ->
  (forall i, (i < Z.to_nat (retries (self st)))%nat ->
             clocks.objects_late (env i)) ->
  exists o, snd (execute env st) = Return (Some o) /\ o ∈ outcomes.
Proof.
  intros Hpos Hlate. pose proof (execute_outcomes env st Hpos) as Hc.
  destruct (snd (execute env st)) as [[o|]| |]; try contradiction.
  - exists o. split; [reflexivity|].
    destruct Hc as [-> | ->]; apply list_elem_of_In; simpl; auto.
  - destruct Hc as (k & Hk & Hend). exfalso.
    revert Hend. apply object_wait_ends. exact (Hlate k Hk).
Qed.

Lemma find_objects_returns_witness :
  (0 < retries (self samples.objects.step3))%Z /\
  (forall i, (i < 3)%nat ->
             clocks.objects_late ((fun _ => samples.objects.silent) i)) /\
  exists o,
    snd (execute (fun _ => samples.objects.silent) samples.objects.step3)
    = Return (Some o) /\ o ∈ outcomes.
Proof.
  assert (Hpos : (0 < retries (self samples.objects.step3))%Z) by reflexivity.
  assert (Hlate : forall i, (i < 3)%nat ->
                    clocks.objects_late ((fun _ => samples.objects.silent) i)).
  { intros i _. exists (mkTick [] (101 * samples.tenth)). split.
    - apply list_elem_of_In. vm_compute. tauto.
    - reflexivity. }
  split; [exact Hpos|]. split; [exact Hlate|].
  exact (find_objects_returns (fun _ => samples.objects.silent)
                              samples.objects.step3 Hpos Hlate).
Defined.

(** X10.  An attempt of [find_objects] ends as done only when both an
    object list and the event "e_done" were delivered after the latch
    was cleared for that attempt; the latch then holds that list. *)
Theorem find_objects_done_has_list (e : AttemptEnv) (st st' : State) :
  attempt e st = (st', Done) ->
  event_msg (self st') = Has "e_done" /\
  EventOutMsg "e_done" ∈ delivered e /\
  exists l, object_list (self st') = Has (Some l) /\
            ObjectListMsg l ∈ delivered e.
Proof.
  unfold attempt.
  destruct (wait (start_time e) (ticks e) (self (reset_and_trigger st)))
    as [s' w] eqn:E.
  intros H. injection H as <- ->. cbn [self].
  destruct (wait_done _ _ _ _ E) as [Hev [l Hl]].
  pose proof (wait_event (start_time e) (ticks e)
                (self (reset_and_trigger st)) "e_done") as Hwe.
  pose proof (wait_list (start_time e) (ticks e)
                (self (reset_and_trigger st)) l) as Hwl.
  rewrite E in Hwe, Hwl. cbn [fst] in Hwe, Hwl.
  split; [exact Hev|]. split.
  - destruct (Hwe Hev) as [Hold | Hnew]; [discriminate | exact Hnew].
  - exists l. split; [exact Hl|].
    destruct (Hwl Hl) as [Hold | Hnew]; [discriminate | exact Hnew].
Qed.

Lemma find_objects_done_has_list_witness :
  snd (attempt samples.objects.answering samples.objects.step3) = Done /\
  EventOutMsg "e_done" ∈ delivered samples.objects.answering.
Proof.
  split; [reflexivity|].
  exact (proj1 (proj2 (find_objects_done_has_list
                         samples.objects.answering samples.objects.step3
                         (fst (attempt samples.objects.answering
                                       samples.objects.step3))
                         eq_refl))).
Defined.

End ObjectBounds.

(** ** find_objects: runs without late callbacks *)

Section ObjectCalm.
Import find_objects.

(** X20.  Retry bound, for runs in which no callback runs between the last
    poll of an attempt and the next clearing of the latch (or the return).
    With [N >= 1] retries configured: if every attempt ends with no object
    in the latch, the step publishes exactly [N] triggers and returns
    'no_objects_found'; if attempt [k] is the first not to, and it ends
    with "e_done" and a non-empty list, the step publishes exactly [k + 1]
    triggers and returns 'objects_found' with that list. *)
Theorem find_objects_retry_bound (env : nat -> AttemptEnv) (st : State) :
  (0 < retries (self st))%Z ->
  (forall j, (j < Z.to_nat (retries (self st)))%nat -> calm (env j)) ->
  ((forall j, (j < Z.to_nat (retries (self st)))%nat -> quiet (env j)) ->
   snd (execute env st) = Return (Some "no_objects_found") /\
   trace (fst (execute env st))
   = trace st ++ concat (replicate (Z.to_nat (retries (self st)))
                                   cycle_actions) /\
   triggers EVENT_IN_TOPIC (trace (fst (execute env st)))
   = (triggers EVENT_IN_TOPIC (trace st)
      + Z.to_nat (retries (self st)))%nat) /\
  (forall k, (k < Z.to_nat (retries (self st)))%nat ->
     (forall j, (j < k)%nat -> quiet (env j)) ->
     ending (env k) = Done ->
     yield (env k) <> [] ->
     snd (execute env st) = Return (Some "objects_found") /\
     found_objects (fst (execute env st)) = Some (yield (env k)) /\
     trace (fst (execute env st))
     = trace st ++ concat (replicate (S k) cycle_actions) /\
     triggers EVENT_IN_TOPIC (trace (fst (execute env st)))
     = (triggers EVENT_IN_TOPIC (trace st) + S k)%nat).
Proof.
  intros Hpos Hcalm. pose proof (execute_cases env st Hpos Hcalm) as Hc. split.
  - intros Hq.
    destruct (snd (execute env st)) as [[o|]| |]; try contradiction.
    + destruct Hc as [(-> & _ & _ & Htr) | (_ & k & Hk & _ & Hhit & _)].
      * split; [reflexivity|]. split; [exact Htr|].
        rewrite Htr. apply triggers_cycles.
      * destruct (quiet_not_hit _ (Hq k Hk) Hhit).
    + destruct Hc as (k & Hk & _ & Hend & _).
      destruct (quiet_not_waiting _ (Hq k Hk) Hend).
  - intros k Hk Hq Hdone Hy.
    assert (Hhit : hit (env k)).
    { split; [rewrite Hdone; discriminate | exact Hy]. }
    destruct (snd (execute env st)) as [[o|]| |]; try contradiction.
    + destruct Hc as [(_ & _ & Hall & _)
                     | (-> & k' & Hk' & Hq' & Hhit' & Hslot & Htr)].
      * destruct (quiet_not_hit _ (Hall k Hk) Hhit).
      * assert (k' = k) as ->.
        { destruct (Nat.lt_trichotomy k' k) as [Hlt | [Heq | Hgt]].
          - destruct (quiet_not_hit _ (Hq k' Hlt) Hhit').
          - exact Heq.
          - destruct (quiet_not_hit _ (Hq' k Hgt) Hhit). }
        split; [reflexivity|]. split; [exact Hslot|]. split; [exact Htr|].
        rewrite Htr. apply triggers_cycles.
    + destruct Hc as (k' & Hk' & Hq' & Hend & _). exfalso.
      destruct (Nat.lt_trichotomy k' k) as [Hlt | [Heq | Hgt]].
      * exact (quiet_not_waiting _ (Hq k' Hlt) Hend).
      * subst k'. exact (hit_not_waiting _ Hhit Hend).
      * exact (quiet_not_hit _ (Hq' k Hgt) Hhit).
Qed.

Lemma find_objects_retry_bound_witness :
  (0 < retries (self samples.objects.step3))%Z /\
  (forall j, (j < 3)%nat -> calm (samples.objects.third_time j)) /\
  (forall j, (j < 2)%nat -> quiet (samples.objects.third_time j)) /\
  ending (samples.objects.third_time 2) = Done /\
  snd (execute samples.objects.third_time samples.objects.step3)
  = Return (Some "objects_found") /\
  found_objects (fst (execute samples.objects.third_time
                              samples.objects.step3))
  = Some [samples.cup] /\
  triggers EVENT_IN_TOPIC
           (trace (fst (execute samples.objects.third_time
                                samples.objects.step3))) = 3%nat.
Proof.
  assert (Hpos : (0 < retries (self samples.objects.step3))%Z) by reflexivity.
  assert (Hcalm : forall j, (j < 3)%nat -> calm (samples.objects.third_time j)).
  { intros [|[|j]] _; reflexivity. }
  assert (Hq : forall j, (j < 2)%nat -> quiet (samples.objects.third_time j)).
  { intros [|[|j]] Hj.
    - split; [discriminate | reflexivity].
    - split; [discriminate | reflexivity].
    - lia. }
  assert (Hdone : ending (samples.objects.third_time 2) = Done) by reflexivity.
  split; [exact Hpos|]. split; [exact Hcalm|]. split; [exact Hq|].
  split; [exact Hdone|].
  destruct (proj2 (find_objects_retry_bound samples.objects.third_time
                                            samples.objects.step3 Hpos Hcalm)
                  2%nat ltac:(simpl; lia) Hq Hdone ltac:(discriminate))
    as (Hout & Hslot & _ & Htrig).
  split; [exact Hout|]. split; [exact Hslot | exact Htrig].
Defined.

(** X21.  No accumulation, for runs in which no callback runs between the
    last poll of an attempt and the next clearing of the latch (or the
    return).  With at least one retry configured, when the step returns
    'objects_found' the slot holds the non-empty list that was in the
    latch when the waiting loop of the last attempt made ended, and
    nothing else; every attempt before that one ended without objects. *)
Theorem find_objects_slot_after_found (env : nat -> AttemptEnv) (st : State) :
  (0 < retries (self st))%Z ->
  (forall j, (j < Z.to_nat (retries (self st)))%nat -> calm (env j)) ->
  snd (execute env st) = Return (Some "objects_found") ->
  exists k, (k < Z.to_nat (retries (self st)))%nat /\
    (forall j, (j < k)%nat -> quiet (env j)) /\
    ending (env k) <> StillWaiting /\
    found_objects (fst (execute env st)) = Some (yield (env k)) /\
    yield (env k) <> [] /\
    trace (fst (execute env st))
    = trace st ++ concat (replicate (S k) cycle_actions).
Proof.
  intros Hpos Hcalm Hout.
  pose proof (execute_cases env st Hpos Hcalm) as Hc.
  rewrite Hout in Hc.
  destruct Hc as [(Ho & _) | (_ & k & Hk & Hq & [Hend Hy] & Hslot & Htr)];
    [discriminate|].
  exists k. split; [exact Hk|]. split; [exact Hq|]. split; [exact Hend|].
  split; [exact Hslot|]. split; [exact Hy | exact Htr].
Qed.

Lemma find_objects_slot_after_found_witness :
  found_objects samples.objects.step3 = Some [samples.nut] /\
  (0 < retries (self samples.objects.step3))%Z /\
  (forall j, (j < 3)%nat -> calm (samples.objects.third_time j)) /\
  snd (execute samples.objects.third_time samples.objects.step3)
  = Return (Some "objects_found") /\
  exists k,
    found_objects (fst (execute samples.objects.third_time
                                samples.objects.step3))
    = Some (yield (samples.objects.third_time k)) /\
    yield (samples.objects.third_time k) <> [].
Proof.
  assert (Hpos : (0 < retries (self samples.objects.step3))%Z) by reflexivity.
  assert (Hcalm : forall j, (j < 3)%nat -> calm (samples.objects.third_time j)).
  { intros [|[|j]] _; reflexivity. }
  split; [reflexivity|]. split; [exact Hpos|]. split; [exact Hcalm|].
  split; [reflexivity|].
  destruct (find_objects_slot_after_found samples.objects.third_time
                                          samples.objects.step3
                                          Hpos Hcalm eq_refl)
    as (k & _ & _ & _ & Hslot & Hy & _).
  exists k. split; [exact Hslot | exact Hy].
Defined.

End ObjectCalm.

(** ** The fusion loop: what it keeps *)

Section FusionKeeps.
Import find_cavities fusion result_sets.

Variable threshold : Q.

Lemma elem_of_merge_one_appended (found : list Cavity) (cav y : Cavity) :
  y ∈ merge_one threshold found cav ->
  (exists e, e ∈ found /\ y = better cav e) \/
  (y = cav /\ existsb (same_name cav) found = false /\
   (matching_error cav < threshold)%Q).
Proof.
  rewrite merge_one_spec.
  destruct (existsb (same_name cav) found) eqn:E.
  - intros Hy. apply list_elem_of_fmap in Hy as (e & -> & He). left. eauto.
  - assert (Hid : forall e, e ∈ found ->
              exists e', e' ∈ found /\ e = better cav e').
    { intros e He. exists e. split; [assumption|].
      unfold better. replace (same_name cav e) with false; [reflexivity|].
      symmetry. apply same_name_neq. intros Hn.
      now apply (proj1 (existsb_same_name_false cav found) E e He). }
    destruct (Qltb (matching_error cav) threshold) eqn:L.
    + intros Hy. apply elem_of_app in Hy as [Hy | Hy].
      * left. now apply Hid.
      * apply list_elem_of_singleton in Hy as ->. right.
        split; [reflexivity|]. split; [reflexivity|]. now apply Qltb_lt.
    + intros Hy. left. now apply Hid.
Qed.

Lemma settled_fixed (found : list Cavity) (cav : Cavity) :
  settled threshold found cav -> merge_one threshold found cav = found.
Proof.
  intros [Hle Hex]. rewrite merge_one_spec.
  destruct (existsb (same_name cav) found) eqn:E.
  - clear Hex E. induction found as [|e found IH]; [reflexivity|].
    rewrite fmap_cons. f_equal.
    + destruct (better_cases cav e) as [(_ & Hn & Hlt) | (Heq & _)];
        [|exact Heq].
      exfalso. apply (Qlt_not_le _ _ Hlt). apply Hle; [now left | now symmetry].
    + apply IH. intros e' He'. apply Hle. now right.
  - destruct Hex as [Hex | Hthr].
    + apply existsb_same_name in Hex. congruence.
    + apply Qltb_not_lt in Hthr. now rewrite Hthr.
Qed.

Lemma settled_after (found : list Cavity) (cav : Cavity) :
  settled threshold (merge_one threshold found cav) cav.
Proof.
  split.
  - intros y Hy Hn.
    apply elem_of_merge_one in Hy as [(e & He & ->) | (-> & _)].
    + rewrite better_name in Hn.
      destruct (better_cases cav e) as [(-> & _) | (-> & Hge)].
      * apply Qle_refl.
      * apply Hge. now symmetry.
    + apply Qle_refl.
  - destruct (existsb (same_name cav) found) eqn:E.
    + left. apply name_kept. now apply existsb_same_name.
    + destruct (Qltb (matching_error cav) threshold) eqn:L.
      * left. exists cav. split; [|reflexivity].
        rewrite merge_one_spec, E, L. apply elem_of_app. right.
        now apply list_elem_of_singleton.
      * right. now apply Qltb_not_lt.
Qed.

Lemma settled_step (found : list Cavity) (cav c : Cavity) :
  settled threshold found cav ->
  settled threshold (merge_one threshold found c) cav.
Proof.
  intros [Hle Hex]. split.
  - intros y Hy Hn.
    apply elem_of_merge_one_appended in Hy
      as [(e & He & ->) | (-> & Habs & Hthr)].
    + rewrite better_name in Hn. pose proof (Hle e He Hn) as Hec.
      destruct (better_cases c e) as [(-> & _ & Hlt) | (-> & _)];
        [|exact Hec].
      apply Qlt_le_weak. eapply Qlt_le_trans; eassumption.
    + destruct Hex as [(e & He & Hne) | Hnot].
      * exfalso.
        apply (proj1 (existsb_same_name_false c found) Habs e He).
        congruence.
      * apply Qlt_le_weak. eapply Qlt_le_trans; [exact Hthr|].
        now apply Qnot_lt_le.
  - destruct Hex as [Hex | Hnot]; [left | now right].
    now apply name_kept.
Qed.

Lemma settled_merge (l found : list Cavity) (cav : Cavity) :
  settled threshold found cav ->
  settled threshold (merge threshold found l) cav.
Proof.
  revert found. induction l as [|c l IH]; intros found H; [exact H|].
  rewrite merge_cons. apply IH. now apply settled_step.
Qed.

Lemma merge_settles (l found : list Cavity) (cav : Cavity) :
  cav ∈ l -> settled threshold (merge threshold found l) cav.
Proof.
  revert found. induction l as [|c l IH]; intros found Hin.
  - now apply elem_of_nil in Hin.
  - rewrite merge_cons. apply elem_of_cons in Hin as [-> | Hin].
    + apply settled_merge, settled_after.
    + now apply IH.
Qed.

Lemma merge_fixed (l found : list Cavity) :
  (forall c, c ∈ l -> settled threshold found c) ->
  merge threshold found l = found.
Proof.
  induction l as [|c l IH]; intros H; [reflexivity|].
  rewrite merge_cons, settled_fixed by (apply H; now left).
  apply IH. intros c' Hc'. apply H. now right.
Qed.

Lemma refines_refl (found : list Cavity) : refines found found.
Proof. intros i e He. exists e. split; [exact He|]. split; [reflexivity|]. apply Qle_refl. Qed.

Lemma refines_trans (a b c : list Cavity) :
  refines a b -> refines b c -> refines a c.
Proof.
  intros Hab Hbc i e He.
  destruct (Hab i e He) as (e1 & H1 & Hn1 & Hle1).
  destruct (Hbc i e1 H1) as (e2 & H2 & Hn2 & Hle2).
  exists e2. split; [exact H2|]. split; [congruence|].
  eapply Qle_trans; eassumption.
Qed.

Lemma merge_one_refines (found : list Cavity) (cav : Cavity) :
  refines found (merge_one threshold found cav).
Proof.
  intros i e He. rewrite merge_one_spec.
  destruct (existsb (same_name cav) found).
  - exists (better cav e). rewrite list_lookup_fmap, He.
    split; [reflexivity|]. split; [apply better_name|].
    destruct (better_cases cav e) as [(-> & _ & Hlt) | (-> & _)].
    + now apply Qlt_le_weak.
    + apply Qle_refl.
  - exists e. split; [|split; [reflexivity | apply Qle_refl]].
    destruct (Qltb (matching_error cav) threshold); [|exact He].
    apply lookup_app_l_Some. exact He.
Qed.

Lemma merge_refines (l found : list Cavity) :
  refines found (merge threshold found l).
Proof.
  revert found. induction l as [|c l IH]; intros found.
  - apply refines_refl.
  - rewrite merge_cons. eapply refines_trans; [apply merge_one_refines|].
    apply IH.
Qed.

Lemma merge_one_length (found : list Cavity) (cav : Cavity) :
  (length found <= length (merge_one threshold found cav) <= S (length found))%nat.
Proof.
  rewrite merge_one_spec.
  destruct (existsb (same_name cav) found).
  - rewrite length_fmap. lia.
  - destruct (Qltb (matching_error cav) threshold).
    + rewrite length_app. simpl. lia.
    + lia.
Qed.

Lemma merge_length (l found : list Cavity) :
  (length found <= length (merge threshold found l)
   <= length found + length l)%nat.
Proof.
  revert found. induction l as [|c l IH]; intros found.
  - simpl. lia.
  - rewrite merge_cons. specialize (IH (merge_one threshold found c)).
    pose proof (merge_one_length found c). simpl. lia.
Qed.

(** The entry at a position is the one that was there or a strictly better
    one from the batch. *)
Lemma merge_lookup_origin (l found : list Cavity) (i : nat) (e e' : Cavity) :
  found !! i = Some e ->
  merge threshold found l !! i = Some e' ->
  e' = e \/ (e' ∈ l /\ (matching_error e' < matching_error e)%Q).
Proof.
  revert found e. induction l as [|c l IH]; intros found e He He'.
  - left. simpl in He'. congruence.
  - rewrite merge_cons in He'.
    destruct (merge_one_refines found c i e He) as (e1 & H1 & _ & _).
    assert (Hc : e1 = e \/ (e1 = c /\ (matching_error c < matching_error e)%Q)).
    { revert H1. rewrite merge_one_spec.
      destruct (existsb (same_name c) found).
      - rewrite list_lookup_fmap, He. intros H. injection H as <-.
        destruct (better_cases c e) as [(-> & _ & Hlt) | (-> & _)]; auto.
      - destruct (Qltb (matching_error c) threshold).
        + rewrite (lookup_app_l_Some _ _ _ _ He). intros H. left. congruence.
        + intros H. left. congruence. }
    destruct (IH _ _ H1 He') as [-> | [Hin Hlt]].
    + destruct Hc as [-> | [-> Hlt]]; [now left | right].
      split; [now left | exact Hlt].
    + right. split; [now right|].
      destruct Hc as [-> | [-> Hlt']]; [exact Hlt|].
      eapply Qlt_trans; eassumption.
Qed.

(** An entry beyond the old length was appended: it comes from the batch
    and is below the threshold. *)
Lemma merge_lookup_new (l found : list Cavity) (i : nat) (e' : Cavity) :
  (length found <= i)%nat ->
  merge threshold found l !! i = Some e' ->
  e' ∈ l /\ (matching_error e' < threshold)%Q.
Proof.
  revert found. induction l as [|c l IH]; intros found Hi He'.
  - simpl in He'. apply lookup_lt_Some in He'. lia.
  - rewrite merge_cons in He'.
    destruct (decide (length (merge_one threshold found c) <= i)%nat) as [Hge | Hlt].
    + destruct (IH _ Hge He') as [Hin Hadm]. split; [now right | exact Hadm].
    + pose proof (merge_one_length found c) as Hlen.
      assert (Hc : merge_one threshold found c !! i = Some c /\
                   (matching_error c < threshold)%Q).
      { revert Hlt Hlen. rewrite merge_one_spec.
        destruct (existsb (same_name c) found).
        - rewrite length_fmap. lia.
        - destruct (Qltb (matching_error c) threshold) eqn:L; [|lia].
          rewrite length_app. simpl. intros H1 H2.
          assert (i = length found) as -> by lia.
          split; [|now apply Qltb_lt].
          now rewrite list_lookup_middle. }
      destruct Hc as [Hc Hadm].
      destruct (merge_lookup_origin l _ i c e' Hc He') as [-> | [Hin Hlt']].
      * split; [now left | exact Hadm].
      * split; [now right|]. eapply Qlt_trans; eassumption.
Qed.

(** The loop looks at names and matching errors only. *)
Lemma merge_one_key (found1 found2 : list Cavity) (c1 c2 : Cavity) :
  key <$> found1 = key <$> found2 -> key c1 = key c2 ->
  key <$> merge_one threshold found1 c1 = key <$> merge_one threshold found2 c2.
Proof.
  intros Hf Hc. injection Hc as Hn Hs.
  assert (H : existsb (same_name c1) found1 = existsb (same_name c2) found2 /\
              key <$> (better c1 <$> found1) = key <$> (better c2 <$> found2)).
  { revert found2 Hf. induction found1 as [|e1 found1 IH];
      intros [|e2 found2] Hf; try discriminate; [split; reflexivity|].
    rewrite !fmap_cons in Hf. injection Hf as Hen Hes Hf.
    destruct (IH found2 Hf) as [Hex Hb].
    assert (Hsame : same_name c1 e1 = same_name c2 e2).
    { unfold same_name. now rewrite Hn, Hen. }
    split.
    - simpl. now rewrite Hsame, Hex.
    - rewrite !fmap_cons, Hb. f_equal. unfold better.
      rewrite Hsame, Hs, Hes.
      destruct (same_name c2 e2 && Qltb (matching_error c2) (matching_error e2));
        unfold key; congruence. }
  destruct H as [Hex Hb]. rewrite !merge_one_spec, Hex, Hs.
  destruct (existsb (same_name c2) found2); [exact Hb|].
  destruct (Qltb (matching_error c2) threshold); [|exact Hf].
  rewrite !fmap_app, Hf. simpl. unfold key. now rewrite Hn, Hs.
Qed.

Lemma merge_key (l1 l2 found1 found2 : list Cavity) :
  key <$> found1 = key <$> found2 -> key <$> l1 = key <$> l2 ->
  key <$> merge threshold found1 l1 = key <$> merge threshold found2 l2.
Proof.
  revert l2 found1 found2. induction l1 as [|c1 l1 IH];
    intros [|c2 l2] found1 found2 Hf Hl; try discriminate; [exact Hf|].
  rewrite !fmap_cons in Hl. injection Hl as Hn Hs Hl.
  rewrite !merge_cons. apply IH; [|exact Hl].
  apply merge_one_key; [exact Hf|]. unfold key. now rewrite Hn, Hs.
Qed.

End FusionKeeps.

Section FusionMore.
Import find_cavities fusion result_sets.

(** X11.  The fusion loop is idempotent: merging the same batch a second
    time changes nothing, whatever the result set, the batch and the
    threshold. *)
Theorem merge_idempotent (threshold : Q) (found l : list Cavity) :
  merge threshold (merge threshold found l) l = merge threshold found l.
Proof.
  apply merge_fixed. intros c Hc. now apply merge_settles.
Qed.

(** X12.  The fusion loop never removes, moves or worsens an entry: every
    entry of the old result set is found at the same index afterwards,
    under the same name, with a matching error that is no higher, and it
    is either the old entry or a strictly better cavity of the batch.  The
    set grows by at most the size of the batch, and every entry beyond the
    old length comes from the batch and is below the threshold. *)
Theorem merge_never_loses (threshold : Q) (found l : list Cavity) :
  (forall i e, found !! i = Some e ->
     exists e', merge threshold found l !! i = Some e' /\
                object_name e' = object_name e /\
                (matching_error e' <= matching_error e)%Q /\
                (e' = e \/
                 (e' ∈ l /\ (matching_error e' < matching_error e)%Q))) /\
  (length found <= length (merge threshold found l)
   <= length found + length l)%nat /\
  (forall i e', (length found <= i)%nat ->
     merge threshold found l !! i = Some e' ->
     e' ∈ l /\ (matching_error e' < threshold)%Q).
Proof.
  split; [|split].
  - intros i e He.
    destruct (merge_refines threshold l found i e He) as (e' & He' & Hn & Hle).
    exists e'. split; [exact He'|]. split; [exact Hn|]. split; [exact Hle|].
    eapply merge_lookup_origin; eassumption.
  - apply merge_length.
  - intros i e'. apply merge_lookup_new.
Qed.

End FusionMore.

(** ** find_cavities: what a run keeps and what it depends on *)

Section CavityKeeps.
Import find_cavities fusion result_sets.

Lemma execute_found (env : Env) (selected_objects : list Object) (st : State) :
  (found_cavities (fst (execute env selected_objects st)) = found_cavities st /\
   (snd (execute env selected_objects st) = Return (Some "timeout") \/
    snd (execute env selected_objects st) = Pending)) \/
  (exists local,
      snd (acquire env 0 selected_objects [] st) = Collected local /\
      found_cavities (fst (execute env selected_objects st))
      = merge matching_threshold (found_cavities st)
              (transform_all env (frame_id (self st)) local) /\
      snd (execute env selected_objects st)
      = Return (Some (classify
                        (found_cavities (fst (execute env selected_objects st)))
                        selected_objects))).
Proof.
  pose proof (acquire_found env selected_objects 0 [] st) as Hfound.
  pose proof (acquire_frame env selected_objects 0 [] st) as Hframe.
  unfold execute.
  destruct (acquire env 0 selected_objects [] st) as [st1 [local| |]];
    cbn [fst snd] in *.
  - right. exists local. cbn [found_cavities]. rewrite Hfound, Hframe. auto.
  - left. auto.
  - left. auto.
Qed.

Lemma execute_by_acquire (env : Env) (selected_objects : list Object)
      (st : State) :
  match snd (acquire env 0 selected_objects [] st) with
  | Collected local =>
    found_cavities (fst (execute env selected_objects st))
    = merge matching_threshold (found_cavities st)
            (transform_all env (frame_id (self st)) local) /\
    snd (execute env selected_objects st)
    = Return (Some (classify
                      (found_cavities (fst (execute env selected_objects st)))
                      selected_objects))
  | AcqTimeout =>
    found_cavities (fst (execute env selected_objects st)) = found_cavities st /\
    snd (execute env selected_objects st) = Return (Some "timeout")
  | AcqPending =>
    found_cavities (fst (execute env selected_objects st)) = found_cavities st /\
    snd (execute env selected_objects st) = Pending
  end.
Proof.
  pose proof (acquire_found env selected_objects 0 [] st) as Hfound.
  pose proof (acquire_frame env selected_objects 0 [] st) as Hframe.
  unfold execute.
  destruct (acquire env 0 selected_objects [] st) as [st1 [local| |]];
    cbn [fst snd found_cavities] in *.
  - rewrite Hfound, Hframe. auto.
  - auto.
  - auto.
Qed.

(** X13.  Whatever its outcome, a run of [find_cavities] never removes,
    moves or worsens an entry of [found_cavities], and every entry it
    appends has a matching error below 0.1. *)
Theorem find_cavities_keeps_entries
        (env : Env) (selected_objects : list Object) (st : State) :
  (forall i e, found_cavities st !! i = Some e ->
     exists e',
       found_cavities (fst (execute env selected_objects st)) !! i = Some e' /\
       object_name e' = object_name e /\
       (matching_error e' <= matching_error e)%Q) /\
  (forall i e', (length (found_cavities st) <= i)%nat ->
     found_cavities (fst (execute env selected_objects st)) !! i = Some e' ->
     (matching_error e' < matching_threshold)%Q).
Proof.
  destruct (execute_found env selected_objects st)
    as [[Hsame _] | (local & Hacq & Hmerge & _)].
  - rewrite Hsame. split.
    + apply refines_refl.
    + intros i e' Hi He'. apply lookup_lt_Some in He'. lia.
  - rewrite Hmerge. split.
    + apply merge_refines.
    + intros i e' Hi He'.
      now destruct (merge_lookup_new _ _ _ _ _ Hi He') as [_ Hadm].
Qed.

(** X14.  The fusion loop and the verdict look at names and matching errors
    only.  Two result sets that agree on them, merged with two batches that
    agree on them, give result sets that agree on them and the same
    verdict: poses, transformed or not, never decide what is replaced,
    appended or turned away. *)
Theorem fusion_ignores_poses
        (threshold : Q) (found1 found2 local1 local2 : list Cavity)
        (selected_objects : list Object) :
  key <$> found1 = key <$> found2 ->
  key <$> local1 = key <$> local2 ->
  key <$> merge threshold found1 local1
  = key <$> merge threshold found2 local2 /\
  classify (merge threshold found1 local1) selected_objects
  = classify (merge threshold found2 local2) selected_objects.
Proof.
  intros Hf Hl.
  assert (Hk : key <$> merge threshold found1 local1
               = key <$> merge threshold found2 local2)
    by now apply merge_key.
  split; [exact Hk|]. unfold classify.
  apply (f_equal length) in Hk. rewrite !length_fmap in Hk.
  now rewrite Hk.
Qed.

Lemma fusion_ignores_poses_witness :
  merge matching_threshold
        [mkCavity "cup" (8#100) (mkPose "camera" 0)]
        [mkCavity "cup" (3#100) (mkPose "camera" 5);
         mkCavity "nut" (5#100) (mkPose "camera" 6)]
  <> merge matching_threshold
           [mkCavity "cup" (8#100) (mkPose scenarios.base 0)]
           [mkCavity "cup" (3#100) (mkPose scenarios.base 105);
            mkCavity "nut" (5#100) (mkPose scenarios.base 106)] /\
  key <$> merge matching_threshold
                [mkCavity "cup" (8#100) (mkPose "camera" 0)]
                [mkCavity "cup" (3#100) (mkPose "camera" 5);
                 mkCavity "nut" (5#100) (mkPose "camera" 6)]
  = key <$> merge matching_threshold
                  [mkCavity "cup" (8#100) (mkPose scenarios.base 0)]
                  [mkCavity "cup" (3#100) (mkPose scenarios.base 105);
                   mkCavity "nut" (5#100) (mkPose scenarios.base 106)].
Proof.
  split; [vm_compute; discriminate|].
  exact (proj1 (fusion_ignores_poses
                  matching_threshold
                  [mkCavity "cup" (8#100) (mkPose "camera" 0)]
                  [mkCavity "cup" (8#100) (mkPose scenarios.base 0)]
                  [mkCavity "cup" (3#100) (mkPose "camera" 5);
                   mkCavity "nut" (5#100) (mkPose "camera" 6)]
                  [mkCavity "cup" (3#100) (mkPose scenarios.base 105);
                   mkCavity "nut" (5#100) (mkPose scenarios.base 106)]
                  samples.cavities.subjects eq_refl eq_refl)).
Defined.

(** X15.  A run of [find_cavities] that starts with more entries in
    [found_cavities] than there are selected objects never returns
    'succeeded', whatever the detector answers. *)
Theorem find_cavities_oversize
        (env : Env) (selected_objects : list Object) (st : State) :
  (length selected_objects < length (found_cavities st))%nat ->
  snd (execute env selected_objects st) <> Return (Some "succeeded").
Proof.
  intros Hlen.
  destruct (execute_found env selected_objects st)
    as [[_ [Ho | Ho]] | (local & _ & Hmerge & Ho)]; rewrite Ho;
    try discriminate.
  destruct (classify_cases
              (found_cavities (fst (execute env selected_objects st)))
              selected_objects) as [[_ Heq] | [Hc _]].
  - exfalso. rewrite Hmerge in Heq.
    pose proof (merge_length matching_threshold
                  (transform_all env (frame_id (self st)) local)
                  (found_cavities st)). lia.
  - rewrite Hc. discriminate.
Qed.

Lemma find_cavities_oversize_witness :
  (length (@nil Object) < length (found_cavities samples.cavities.earlier_step))%nat /\
  snd (execute samples.cavities.two_of_three [] samples.cavities.earlier_step)
  <> Return (Some "succeeded").
Proof.
  assert (H : (length (@nil Object)
               < length (found_cavities samples.cavities.earlier_step))%nat)
    by (simpl; lia).
  split; [exact H|].
  exact (find_cavities_oversize samples.cavities.two_of_three []
                                samples.cavities.earlier_step H).
Defined.

End CavityKeeps.

(** ** find_cavities: the deadline of a cycle *)

Section CavityDeadline.
Import find_cavities.

Lemma cavity_wait_not_early (start : Z) (script : list Tick) (s : Self) :
  (forall t, t ∈ script -> (now t - start <= timeout)%Z) ->
  snd (wait start script s) <> TimedOut.
Proof.
  revert s. induction script as [|t script IH]; intros s Hearly; simpl.
  - discriminate.
  - destruct (is_shutdown t); [discriminate|].
    destruct (cavity (foldl cavity_cb s (arrivals t))); [discriminate|].
    destruct (now t - start >? timeout)%Z eqn:Hc.
    + rewrite Z.gtb_ltb in Hc. apply Z.ltb_lt in Hc.
      pose proof (Hearly t ltac:(now left)). lia.
    + apply IH. intros t' Ht'. apply Hearly. now right.
Qed.

Lemma cavity_wait_cut (start : Z) (pre : list Tick) (t : Tick)
      (post : list Tick) (s : Self) :
  (now t - start > timeout)%Z ->
  wait start (pre ++ t :: post) s = wait start (pre ++ [t]) s.
Proof.
  intros Hlate. revert s. induction pre as [|t0 pre IH]; intros s; simpl.
  - destruct (is_shutdown t); [reflexivity|].
    destruct (cavity (foldl cavity_cb s (arrivals t))); [reflexivity|].
    destruct (now t - start >? timeout)%Z eqn:Hc; [reflexivity|].
    rewrite Z.gtb_ltb in Hc. apply Z.ltb_ge in Hc. lia.
  - destruct (is_shutdown t0); [reflexivity|].
    destruct (cavity (foldl cavity_cb s (arrivals t0))); [reflexivity|].
    destruct (now t0 - start >? timeout)%Z; [reflexivity|]. apply IH.
Qed.

(** X16.  The waiting loop of [find_cavities] keeps its deadline: it does
    not end in a timeout while every clock reading is within 5 s of the
    start, and it never polls again after a reading beyond 5 s (what the
    script holds after that poll plays no part). *)
Theorem find_cavities_wait_deadline (start : Z) (s : Self) :
  (forall script,
      (forall t, t ∈ script -> (now t - start <= timeout)%Z) ->
      snd (wait start script s) <> TimedOut) /\
  (forall pre t post,
      (now t - start > timeout)%Z ->
      wait start (pre ++ t :: post) s = wait start (pre ++ [t]) s /\
      snd (wait start (pre ++ t :: post) s) <> StillWaiting).
Proof.
  split.
  - intros script. apply cavity_wait_not_early.
  - intros pre t post Hlate. split.
    + now apply cavity_wait_cut.
    + apply cavity_wait_ends. exists t. split; [|exact Hlate].
      apply elem_of_app. right. now left.
Qed.

Lemma find_cavities_wait_deadline_witness :
  snd (wait 0 [mkTick [] false 0; mkTick [] false (50 * samples.tenth)]
            (mkSelf None None)) = StillWaiting /\
  wait 0 [mkTick [] false 0;
          mkTick [] false (51 * samples.tenth);
          mkTick [samples.cavities.seen (3#100)] false (52 * samples.tenth)]
       (mkSelf None None)
  = wait 0 [mkTick [] false 0; mkTick [] false (51 * samples.tenth)]
         (mkSelf None None) /\
  snd (wait 0 [mkTick [] false 0; mkTick [] false (51 * samples.tenth)]
            (mkSelf None None)) = TimedOut.
Proof.
  destruct (find_cavities_wait_deadline 0 (mkSelf None None))
    as (_ & Hcut).
  split; [reflexivity|]. split; [|reflexivity].
  exact (proj1 (Hcut [mkTick [] false 0]
                     (mkTick [] false (51 * samples.tenth))
                     [mkTick [samples.cavities.seen (3#100)] false
                             (52 * samples.tenth)]
                     ltac:(reflexivity))).
Defined.

Lemma acquire_not_pending (env : Env) (objs : list Object) (i : nat)
      (local : list Cavity) (st : State) :
  (forall j, (j < length objs)%nat ->
             cycle_end (cycles env (i + j)) <> StillWaiting) ->
  snd (acquire env i objs local st) <> AcqPending.
Proof.
  revert i local st. induction objs as [|obj objs IH]; intros i local st Hend.
  - discriminate.
  - simpl acquire. rewrite wait_frame. fold (cycle_end (cycles env i)).
    assert (Hnext : forall j, (j < length objs)%nat ->
                      cycle_end (cycles env (S i + j)) <> StillWaiting).
    { intros j Hj. replace (S i + j)%nat with (i + S j)%nat by lia.
      apply Hend. simpl. lia. }
    pose proof (Hend 0%nat ltac:(simpl; lia)) as H0.
    rewrite Nat.add_0_r in H0.
    destruct (cycle_end (cycles env i)) as [c| | |];
      try discriminate; try contradiction; now apply IH.
Qed.

(** X17.  With no frame configured ([frame_id] is [None] or empty, so that
    the transform listener is never called), if in the cycle of every
    selected object the clock gets past the deadline, [find_cavities]
    returns, and what it returns is one of its three declared outcomes. *)
Theorem find_cavities_returns
        (env : Env) (selected_objects : list Object) (st : State) :
  truthy (frame_id (self st)) = None ->
  (forall j, (j < length selected_objects)%nat ->
             clocks.cavity_late (cycles env j)) ->
  exists o, snd (execute env selected_objects st) = Return (Some o) /\
            o ∈ outcomes.
Proof.
  intros _ Hlate.
  assert (Hnp : snd (acquire env 0 selected_objects [] st) <> AcqPending).
  { apply acquire_not_pending. intros j Hj. simpl.
    apply cavity_wait_ends. exact (Hlate j Hj). }
  pose proof (execute_by_acquire env selected_objects st) as H.
  destruct (snd (acquire env 0 selected_objects [] st)) as [local| |].
  - destruct H as [_ Ho]. eexists. split; [exact Ho|].
    destruct (classify_cases
                (found_cavities (fst (execute env selected_objects st)))
                selected_objects) as [[-> _] | [-> _]];
      apply list_elem_of_In; simpl; auto.
  - destruct H as [_ Ho]. exists "timeout". split; [exact Ho|].
    apply list_elem_of_In; simpl; auto.
  - contradiction.
Qed.

Lemma find_cavities_returns_witness :
  truthy (frame_id (self samples.cavities.earlier_step)) = None /\
  (forall j, (j < length samples.cavities.subjects)%nat ->
             clocks.cavity_late (cycles scenarios.second_unanswered j)) /\
  exists o,
    snd (execute scenarios.second_unanswered samples.cavities.subjects
                 samples.cavities.earlier_step) = Return (Some o) /\
    o ∈ outcomes.
Proof.
  assert (Hframe : truthy (frame_id (self samples.cavities.earlier_step))
                   = None) by reflexivity.
  assert (Hlate : forall j, (j < length samples.cavities.subjects)%nat ->
                    clocks.cavity_late (cycles scenarios.second_unanswered j)).
  { intros j _. exists (mkTick [] false (51 * samples.tenth)). split.
    - apply list_elem_of_In. destruct j as [|[|j]]; vm_compute; tauto.
    - destruct j as [|[|j]]; reflexivity. }
  split; [exact Hframe|]. split; [exact Hlate|].
  exact (find_cavities_returns scenarios.second_unanswered
                               samples.cavities.subjects
                               samples.cavities.earlier_step Hframe Hlate).
Defined.

End CavityDeadline.

(** ** find_cavities: names in the result set *)

Section CavityComplete.
Import find_cavities fusion result_sets.

Lemma execute_unique (env : Env) (selected_objects : list Object) (st : State) :
  NoDup (object_name <$> found_cavities st) ->
  NoDup (object_name <$> found_cavities (fst (execute env selected_objects st))).
Proof.
  intros Hu. pose proof (execute_by_acquire env selected_objects st) as H.
  destruct (snd (acquire env 0 selected_objects [] st)) as [local| |];
    destruct H as [-> _]; [now apply merge_unique | exact Hu | exact Hu].
Qed.

(** X18.  A run of [find_cavities] never brings a second entry of a name
    into [found_cavities]: a result set that is unique by name at entry is
    so at exit, whatever the outcome.  When such a run returns
    'succeeded', the result set holds as many distinct names as there are
    selected objects. *)
Theorem find_cavities_keeps_names_unique
        (env : Env) (selected_objects : list Object) (st : State) :
  NoDup (object_name <$> found_cavities st) ->
  NoDup (object_name <$> found_cavities (fst (execute env selected_objects st)))
  /\
  (snd (execute env selected_objects st) = Return (Some "succeeded") ->
   unique_identities (found_cavities (fst (execute env selected_objects st)))
   = length selected_objects).
Proof.
  intros Hu.
  pose proof (execute_unique env selected_objects st Hu) as Hu'.
  split; [exact Hu'|]. intros Hout.
  rewrite (unique_identities_length _ Hu').
  pose proof (execute_by_acquire env selected_objects st) as H.
  destruct (snd (acquire env 0 selected_objects [] st)) as [local| |];
    destruct H as [_ Ho]; rewrite Ho in Hout; try discriminate.
  destruct (classify_cases
              (found_cavities (fst (execute env selected_objects st)))
              selected_objects) as [[_ Hl] | [Hc _]]; [exact Hl|].
  rewrite Hc in Hout. discriminate.
Qed.

Lemma find_cavities_keeps_names_unique_witness :
  NoDup (object_name <$> found_cavities samples.cavities.earlier_step) /\
  NoDup (object_name <$>
           found_cavities
             (fst (execute samples.cavities.two_of_three
                           samples.cavities.subjects
                           samples.cavities.earlier_step))) /\
  length (found_cavities
            (fst (execute samples.cavities.two_of_three
                          samples.cavities.subjects
                          samples.cavities.earlier_step))) = 2%nat.
Proof.
  assert (Hu : NoDup (object_name <$>
                        found_cavities samples.cavities.earlier_step)).
  { apply NoDup_singleton. }
  split; [exact Hu|]. split; [|reflexivity].
  exact (proj1 (find_cavities_keeps_names_unique
                  samples.cavities.two_of_three samples.cavities.subjects
                  samples.cavities.earlier_step Hu)).
Defined.

End CavityComplete.

(** ** do_visual_servoing: the counter *)

Section ServoingCounter.
Import do_visual_servoing.

(** X19.  [do_visual_servoing] raises only what the service call raised,
    and only when that is not a [ServiceException]: a [ServiceException]
    becomes the outcome 'failed'.  The step sets [vscount] to 0 exactly when
    the call raised a [ServiceException] or answered with code 0, and hands
    it on unchanged otherwise; so after 'succeeded' the counter is 0. *)
Theorem visual_servoing_counter (r : ServiceResult) (vscount : Z) :
  (forall exn, snd (execute r vscount) = Raise exn <-> r = OtherException exn) /\
  (snd (execute r vscount) <> Pending) /\
  ((r = ServiceException \/ r = Response 0) -> fst (execute r vscount) = 0%Z) /\
  (r <> ServiceException -> r <> Response 0 ->
   fst (execute r vscount) = vscount) /\
  (r = ServiceException -> snd (execute r vscount) = Return (Some "failed")) /\
  (snd (execute r vscount) = Return (Some "succeeded") ->
   r = Response 0 /\ fst (execute r vscount) = 0%Z).
Proof.
  split; [|split; [|split; [|split; [|split]]]].
  - intros exn. destruct r as [|exn'|code]; simpl.
    + split; discriminate.
    + split; intros H; injection H as ->; reflexivity.
    + split; [|discriminate].
      destruct (code =? 0)%Z; [discriminate|].
      destruct (code =? -1)%Z; [discriminate|].
      destruct (code =? -2)%Z; [discriminate|].
      destruct (code =? -3)%Z; discriminate.
  - destruct r as [|exn'|code]; simpl; try discriminate.
    destruct (code =? 0)%Z; [discriminate|].
    destruct (code =? -1)%Z; [discriminate|].
    destruct (code =? -2)%Z; [discriminate|].
    destruct (code =? -3)%Z; discriminate.
  - intros [-> | ->]; reflexivity.
  - intros Hse Hr0. destruct r as [|exn'|code]; simpl.
    + contradiction.
    + reflexivity.
    + assert (Hne : (code =? 0)%Z = false).
      { apply Z.eqb_neq. intros ->. now apply Hr0. }
      rewrite Hne.
      destruct (code =? -1)%Z; [reflexivity|].
      destruct (code =? -2)%Z; [reflexivity|].
      destruct (code =? -3)%Z; reflexivity.
  - intros ->. reflexivity.
  - destruct r as [|exn'|code]; simpl; try discriminate.
    destruct (code =? 0)%Z eqn:E0.
    + intros _. apply Z.eqb_eq in E0. subst code. auto.
    + destruct (code =? -1)%Z; [discriminate|].
      destruct (code =? -2)%Z; [discriminate|].
      destruct (code =? -3)%Z; discriminate.
Qed.

Lemma visual_servoing_counter_witness :
  execute ServiceException 7 = (0%Z, Return (Some "failed")) /\
  execute (OtherException "ROSInterruptException") 7
  = (7%Z, Raise "ROSInterruptException") /\
  fst (execute (Response (-2)) 7) = 7%Z.
Proof.
  destruct (visual_servoing_counter ServiceException 7)
    as (_ & _ & Hzero & _ & Hfail & _).
  destruct (visual_servoing_counter (OtherException "ROSInterruptException") 7)
    as (Hraise & _ & _ & Hsame & _).
  destruct (visual_servoing_counter (Response (-2)) 7)
    as (_ & _ & _ & Hkeep & _).
  split; [|split].
  - rewrite (surjective_pairing (execute ServiceException 7)).
    now rewrite (Hzero (or_introl eq_refl)), (Hfail eq_refl).
  - rewrite (surjective_pairing (execute _ 7)).
    rewrite (Hsame ltac:(discriminate) ltac:(discriminate)).
    now rewrite (proj2 (Hraise "ROSInterruptException") eq_refl).
  - apply Hkeep; discriminate.
Defined.

End ServoingCounter.
